(** * Tg-cloner: the replication pipeline of [main.py]

    A shallow embedding of [TelegramCloner] (message dispatch, reply
    translation, album de-duplication, statistics) and of the driver
    [start_cloning] / [main], together with the properties of the
    specification that can be settled on it.

    Conventions.
    - Python [int] is [Z]; the [dict] [message_map] is a [gmap Z Z]; the
      [set]s [processed_messages_ids] and [seen_album_ids] are [gset Z].
    - Python [str] is [string]; one [ascii] stands for one code point
      below 256.
    - The Telegram client, the file system and the clock are outside the
      repository.  They are an oracle ([Platform]) that answers every call
      from the history of the calls made so far; each call and its answer
      is appended to a trace kept in the state.
    - Exceptions are values of [exn]; state changes made before an
      exception is raised persist, as in Python.
    - [process_message] calls itself from its rate-limit handlers; the
      model bounds that recursion by a fuel argument, and the statements
      are about every budget of at least 2, which is shown to be enough.
    - [os.makedirs], logging and the construction of the client are left
      out: no statement depends on them. *)

From Stdlib Require Import ZArith QArith Ascii String.
From stdpp Require Import gmap strings list pretty.

Set Warnings "-clear-no-such-hyp".

Local Open Scope string_scope.
Local Open Scope Z_scope.

(** ** Python string primitives *)

Module PyStr.

(** [str.isspace] / the regex class [\s] on code points below 256:
    U+0009..U+000D, U+001C..U+001F, U+0020, U+0085, U+00A0. *)
Definition isspace (c : ascii) : bool :=
  let n := nat_of_ascii c in
  ((9 <=? n) && (n <=? 13) || (28 <=? n) && (n <=? 32)
   || (n =? 133) || (n =? 160))%nat.

(** Truthiness of a [str]: the empty string is falsy. *)
Definition truthy (s : string) : bool :=
  match s with "" => false | _ => true end.

(** [old] is not empty: scan left to right, replacing each
    non-overlapping occurrence; [skip] counts the characters of the
    occurrence just replaced that are still to be dropped. *)
Fixpoint replace_scan (old new : string) (skip : nat) (s : string) : string :=
  match s with
  | "" => ""
  | String c s' =>
      match skip with
      | S k => replace_scan old new k s'
      | O =>
          if String.prefix old s
          then new +:+ replace_scan old new (String.length old - 1) s'
          else String c (replace_scan old new 0 s')
      end
  end.

(** [old] is empty: [new] is inserted before every character and at the
    end. *)
Fixpoint replace_empty (new : string) (s : string) : string :=
  match s with
  | "" => new
  | String c s' => new +:+ String c (replace_empty new s')
  end.

(** [s.replace(old, new)] *)
Definition replace (old new s : string) : string :=
  match old with
  | "" => replace_empty new s
  | _ => replace_scan old new 0 s
  end.

(** Length of the longest prefix of [s] made of [\S] characters. *)
Fixpoint nonspace_run (s : string) : nat :=
  match s with
  | "" => 0
  | String c s' => if isspace c then 0 else S (nonspace_run s')
  end%nat.

Fixpoint drop (n : nat) (s : string) : string :=
  match n, s with
  | O, _ => s
  | S k, "" => ""
  | S k, String _ s' => drop k s'
  end.

(** A regex [lit\S+] at the start of [s]: the length of the match. *)
Definition match_lit_nonspace (lit s : string) : option nat :=
  if String.prefix lit s then
    match nonspace_run (drop (String.length lit) s) with
    | O => None
    | n => Some (String.length lit + n)%nat
    end
  else None.

(** [(https?://\S+)] at the start of [s].  The optional [s] is greedy;
    when [https://] is followed by no [\S] the engine backtracks to
    [http] followed by [://], which cannot match there. *)
Definition match_url (s : string) : option nat :=
  match match_lit_nonspace "https://" s with
  | Some n => Some n
  | None => match_lit_nonspace "http://" s
  end.

(** [(t\.me/\S+)] at the start of [s]. *)
Definition match_tme (s : string) : option nat :=
  match_lit_nonspace "t.me/" s.

(** A run of one or more spaces [ +] at the start of [s]. *)
Fixpoint space_run (s : string) : nat :=
  match s with
  | String " " s' => S (space_run s')
  | _ => 0
  end%nat.

Definition match_spaces (s : string) : option nat :=
  match space_run s with O => None | n => Some n end.

(** [re.sub(pattern, repl, s)] for a pattern that never matches the
    empty string: [matcher] gives the length of the leftmost match
    starting at the current position; the scan resumes after it. *)
Fixpoint re_sub_scan (matcher : string → option nat) (repl : string)
    (skip : nat) (s : string) : string :=
  match s with
  | "" => ""
  | String c s' =>
      match skip with
      | S k => re_sub_scan matcher repl k s'
      | O =>
          match matcher s with
          | Some (S k) => repl +:+ re_sub_scan matcher repl k s'
          | _ => String c (re_sub_scan matcher repl 0 s')
          end
      end
  end.

Definition re_sub (matcher : string → option nat) (repl s : string) : string :=
  re_sub_scan matcher repl 0 s.

Fixpoint lstrip (s : string) : string :=
  match s with
  | "" => ""
  | String c s' => if isspace c then lstrip s' else s
  end.

(** [s.strip()] *)
Definition strip (s : string) : string :=
  String.rev (lstrip (String.rev (lstrip s))).

(** [c in s] for a one-character [c]. *)
Fixpoint contains (c : ascii) (s : string) : bool :=
  match s with
  | "" => false
  | String c' s' => Ascii.eqb c' c || contains c s'
  end.

(** [s.split(sep)] for a one-character [sep]: the piece before the first
    separator, and the pieces after it. *)
Fixpoint split_pieces (sep : ascii) (s : string) : string * list string :=
  match s with
  | "" => ("", [])
  | String c s' =>
      let '(piece, pieces) := split_pieces sep s' in
      if Ascii.eqb c sep then ("", piece :: pieces)
      else (String c piece, pieces)
  end.

Definition split (sep : ascii) (s : string) : list string :=
  let '(piece, pieces) := split_pieces sep s in piece :: pieces.

(** [s.split(sep, 1)] for an [s] in which [sep] occurs: what is before
    the first separator and what is after it. *)
Fixpoint split_first (sep : ascii) (s : string) : string * string :=
  match s with
  | "" => ("", "")
  | String c s' =>
      if Ascii.eqb c sep then ("", s')
      else let '(before, after) := split_first sep s' in
           (String c before, after)
  end.

End PyStr.

(** The line feed of the f-strings ([\n]). *)
Definition nl : string := String (ascii_of_nat 10) "".

(** ** Telegram objects, as far as [main.py] inspects them *)

(** [document.attributes]: the four kinds the classifier tests with
    [isinstance], and the kinds it passes over. *)
Inductive DocumentAttribute :=
| DocumentAttributeVideo
| DocumentAttributeAudio (voice : bool)
| DocumentAttributeSticker
| DocumentAttributeAnimated
| DocumentAttributeFilename (file_name : string)
| DocumentAttributeImageSize.

Module PollAnswer.
Record t := { text : string }.
End PollAnswer.

Record Poll := { question : string; answers : list PollAnswer.t }.

Record Contact := {
  first_name : string;
  last_name : option string;
  phone_number : string }.

(** [message.media]: the four payloads [process_message] tests for, and the
    ones it leaves to the generic send (web page previews, geo points...). *)
Inductive MessageMedia :=
| MessageMediaPhoto
| MessageMediaDocument (attributes : list DocumentAttribute)
| MessageMediaPoll (poll : Poll)
| MessageMediaContact (contact : Contact)
| MessageMediaWebPage
| MessageMediaGeo.

Record MessageReplyHeader := { reply_to_msg_id : Z }.

Record MessageFwdHeader := { from_id : option Z; channel_post : option Z }.

(** A fetched message that is not a [MessageService]. *)
Record Message := {
  id : Z;
  text : string;
  media : option MessageMedia;
  reply_to : option MessageReplyHeader;
  grouped_id : option Z;
  fwd_from : option MessageFwdHeader }.

(** What [client.get_entity] resolves to. *)
Inductive Entity :=
| Channel (title : string) (username : option string)
| Chat (title : string)
| User (name : string).

(** What [client.iter_messages] yields. *)
Inductive FetchedItem :=
| ItemMessage (m : Message)
| ItemService
| ItemNone.

(** ** Exceptions *)

(** [KeyboardInterrupt] derives from [BaseException] only; every other
    constructor is an [Exception].  [RPCError] stands for any [Exception]
    that no handler of [main.py] names. *)
Inductive exn :=
| FloodWaitError (seconds : Z)
| SlowModeWaitError (seconds : Z)
| ChatWriteForbiddenError
| ChatAdminRequiredError
| UnboundLocalError
| RPCError
| KeyboardInterrupt.

(** [isinstance(e, Exception)] *)
Definition is_Exception (e : exn) : bool :=
  match e with KeyboardInterrupt => false | _ => true end.

(** ** The platform: client, file system, clock *)

(** Keyword arguments of [client.send_message]. *)
Record SendRequest := {
  send_text : string;
  send_file : option string;
  send_reply_to : option Z;
  send_poll : option Poll;
  send_contact : option Contact;
  send_forward : option (Entity * option Z) }.

Inductive EntityRef := RefName (name : string) | RefPeer (peer : Z).

(** Keyword arguments of [client.iter_messages]. *)
Record IterParams := {
  reverse : bool;
  limit : option Z;
  min_id : option Z;
  max_id : option Z }.

(** One entry per call that leaves the program, with its answer.  The
    first component of [EvSend] and [EvDownload] is the id of the source
    message on whose behalf the call is made. *)
Inductive event :=
| EvStart (r : exn + unit)
| EvGetEntity (ref : EntityRef) (r : exn + Entity)
| EvIterMessages (params : IterParams) (r : list FetchedItem * option exn)
| EvDownload (src : Z) (r : exn + option string)
| EvSend (src : Z) (req : SendRequest) (r : exn + Z)
| EvPathExists (path : string) (r : bool)
| EvRemove (path : string) (r : exn + unit)
| EvSleep (seconds : Q)
| EvCleanDownloads
| EvDisconnect (r : exn + unit)
| EvBanner
| EvProgress (done total : nat)
| EvPrint (line : string)
| EvPrintCritical (e : exn).

(** The answers of the outside world, each a function of the history
    (most recent entry first). *)
Record Platform := {
  client_start : list event → exn + unit;
  get_entity : list event → EntityRef → exn + Entity;
  iter_messages : list event → IterParams → list FetchedItem * option exn;
  download_media : list event → Message → exn + option string;
  send_message : list event → SendRequest → exn + Z;
  path_exists : list event → string → bool;
  os_remove : list event → string → exn + unit;
  client_disconnect : list event → exn + unit }.

(** ** Configuration (the module-level constants read from the environment) *)

Record Config := {
  SOURCE_ENTITY : string;
  DESTINATION_ENTITY : string;
  MAX_MESSAGES : Z;
  DELAY_BETWEEN_MESSAGES : Q;
  START_FROM_MESSAGE_ID : Z;
  END_AT_MESSAGE_ID : Z;
  REPLACE_TEXT : bool;
  text_replacements_dict : list (string * string);
  ADD_SOURCE_LINK : bool;
  REMOVE_URLS : bool;
  ANONYMIZE_FORWARDS : bool }.

(** [d[key] = value] on a [dict], kept as the list of its items in
    insertion order: a key that is present keeps its place. *)
Fixpoint dict_set (key value : string) (d : list (string * string))
    : list (string * string) :=
  match d with
  | [] => [(key, value)]
  | (k, v) :: d' =>
      if String.eqb k key then (k, value) :: d'
      else (k, v) :: dict_set key value d'
  end.

(** Lines 89-95: [text_replacements_dict] from the environment variable
    [TEXT_REPLACEMENTS]. *)
Definition parse_text_replacements (TEXT_REPLACEMENTS : string)
    : list (string * string) :=
  if PyStr.truthy TEXT_REPLACEMENTS then
    fold_left
      (λ d pair,
         if PyStr.contains ":" pair then
           let '(original, replacement) := PyStr.split_first ":" pair in
           dict_set (PyStr.strip original) (PyStr.strip replacement) d
         else d)
      (PyStr.split "," TEXT_REPLACEMENTS) []
  else [].

(** ** Engine state *)

Inductive stat_key :=
| total | cloned | skipped | failed | photos | videos | files | voices
| music | gifs | stickers | polls | contacts | albums | forwards | text_only.

#[global] Instance stat_key_eq_dec : EqDecision stat_key.
Proof. solve_decision. Defined.

(** [self.stats]: a [dict] whose sixteen keys are fixed at construction. *)
Record Stats := {
  st_total : nat; st_cloned : nat; st_skipped : nat; st_failed : nat;
  st_photos : nat; st_videos : nat; st_files : nat; st_voices : nat;
  st_music : nat; st_gifs : nat; st_stickers : nat; st_polls : nat;
  st_contacts : nat; st_albums : nat; st_forwards : nat; st_text_only : nat }.

(** [stats[k]] *)
Definition stat (k : stat_key) (s : Stats) : nat :=
  match k with
  | total => st_total s | cloned => st_cloned s | skipped => st_skipped s
  | failed => st_failed s | photos => st_photos s | videos => st_videos s
  | files => st_files s | voices => st_voices s | music => st_music s
  | gifs => st_gifs s | stickers => st_stickers s | polls => st_polls s
  | contacts => st_contacts s | albums => st_albums s
  | forwards => st_forwards s | text_only => st_text_only s
  end.

(** [stats[k] += 1] *)
Definition incr (k : stat_key) (s : Stats) : Stats :=
  let b k' := (if decide (k = k') then S else λ n, n) (stat k' s) in
  {| st_total := b total; st_cloned := b cloned; st_skipped := b skipped;
     st_failed := b failed; st_photos := b photos; st_videos := b videos;
     st_files := b files; st_voices := b voices; st_music := b music;
     st_gifs := b gifs; st_stickers := b stickers; st_polls := b polls;
     st_contacts := b contacts; st_albums := b albums;
     st_forwards := b forwards; st_text_only := b text_only |}.

Definition stats_zero : Stats :=
  {| st_total := 0; st_cloned := 0; st_skipped := 0; st_failed := 0;
     st_photos := 0; st_videos := 0; st_files := 0; st_voices := 0;
     st_music := 0; st_gifs := 0; st_stickers := 0; st_polls := 0;
     st_contacts := 0; st_albums := 0; st_forwards := 0; st_text_only := 0 |}.

(** The fields of a [TelegramCloner] instance and the history of the
    outside world.  [pending_replies] is never read or written after
    construction and is left out. *)
Record State := {
  source_entity : option Entity;
  destination_entity : option Entity;
  message_map : gmap Z Z;
  processed_messages_ids : gset Z;
  seen_album_ids : gset Z;
  stats : Stats;
  trace : list event }.

(** [TelegramCloner()] *)
Definition init : State :=
  {| source_entity := None; destination_entity := None;
     message_map := ∅; processed_messages_ids := ∅; seen_album_ids := ∅;
     stats := stats_zero; trace := [] |}.

Definition set_source_entity (e : Entity) (s : State) : State :=
  {| source_entity := Some e; destination_entity := destination_entity s;
     message_map := message_map s;
     processed_messages_ids := processed_messages_ids s;
     seen_album_ids := seen_album_ids s; stats := stats s; trace := trace s |}.

Definition set_destination_entity (e : Entity) (s : State) : State :=
  {| source_entity := source_entity s; destination_entity := Some e;
     message_map := message_map s;
     processed_messages_ids := processed_messages_ids s;
     seen_album_ids := seen_album_ids s; stats := stats s; trace := trace s |}.

Definition set_message_map (m : gmap Z Z) (s : State) : State :=
  {| source_entity := source_entity s;
     destination_entity := destination_entity s; message_map := m;
     processed_messages_ids := processed_messages_ids s;
     seen_album_ids := seen_album_ids s; stats := stats s; trace := trace s |}.

Definition set_processed (p : gset Z) (s : State) : State :=
  {| source_entity := source_entity s;
     destination_entity := destination_entity s;
     message_map := message_map s; processed_messages_ids := p;
     seen_album_ids := seen_album_ids s; stats := stats s; trace := trace s |}.

Definition set_seen (a : gset Z) (s : State) : State :=
  {| source_entity := source_entity s;
     destination_entity := destination_entity s;
     message_map := message_map s;
     processed_messages_ids := processed_messages_ids s;
     seen_album_ids := a; stats := stats s; trace := trace s |}.

Definition set_stats (st : Stats) (s : State) : State :=
  {| source_entity := source_entity s;
     destination_entity := destination_entity s;
     message_map := message_map s;
     processed_messages_ids := processed_messages_ids s;
     seen_album_ids := seen_album_ids s; stats := st; trace := trace s |}.

Definition log (ev : event) (s : State) : State :=
  {| source_entity := source_entity s;
     destination_entity := destination_entity s;
     message_map := message_map s;
     processed_messages_ids := processed_messages_ids s;
     seen_album_ids := seen_album_ids s; stats := stats s;
     trace := ev :: trace s |}.

(** ** A state and exception monad *)

(** [OutOfFuel] marks a recursion budget that ran out; no handler catches
    it. *)
Inductive result (A : Type) :=
| Return (a : A)
| Raise (e : exn)
| OutOfFuel.
Arguments Return {A} a.
Arguments Raise {A} e.
Arguments OutOfFuel {A}.

Definition M (A : Type) : Type := State → result A * State.

#[global] Instance M_ret : MRet M := λ A a s, (Return a, s).

#[global] Instance M_bind : MBind M := λ A B f m s,
  match m s with
  | (Return a, s') => f a s'
  | (Raise e, s') => (Raise e, s')
  | (OutOfFuel, s') => (OutOfFuel, s')
  end.

Definition raise {A} (e : exn) : M A := λ s, (Raise e, s).

Definition gets {A} (f : State → A) : M A := λ s, (Return (f s), s).

Definition modify (f : State → State) : M unit := λ s, (Return tt, f s).

(** [try: body except <catches> as e: handler e] *)
Definition try_except {A} (body : M A) (catches : exn → bool)
    (handler : exn → M A) : M A := λ s,
  match body s with
  | (Raise e, s') => if catches e then handler e s' else (Raise e, s')
  | r => r
  end.

(** [try: body finally: final].  An exception of [final] replaces the
    outcome of [body]. *)
Definition try_finally {A} (body : M A) (final : M unit) : M A := λ s,
  let '(r, s') := body s in
  match final s' with
  | (Return _, s'') => (r, s'')
  | (Raise e, s'') => (Raise e, s'')
  | (OutOfFuel, s'') => (OutOfFuel, s'')
  end.

(** Record the call and turn the answer into a value or an exception. *)
Definition call {A} (ask : list event → exn + A)
    (ev : (exn + A) → event) : M A := λ s,
  let r := ask (trace s) in
  match r with
  | inl e => (Raise e, log (ev r) s)
  | inr a => (Return a, log (ev r) s)
  end.

(** The same for a call that cannot raise. *)
Definition query {A} (ask : list event → A) (ev : A → event) : M A := λ s,
  let r := ask (trace s) in (Return r, log (ev r) s).

Definition emit (ev : event) : M unit := modify (log ev).

(** [self.stats[k] += 1] *)
Definition bump (k : stat_key) : M unit :=
  modify (λ s, set_stats (incr k (stats s)) s).

(** Python truthiness of the optional values [process_message] tests. *)
Definition truthy_file (file : option string) : bool :=
  match file with Some f => PyStr.truthy f | None => false end.

(** [message.grouped_id and message.grouped_id in self.seen_album_ids]:
    [None] and [0] are falsy. *)
Definition album_seen (grouped_id : option Z) (seen : gset Z) : bool :=
  match grouped_id with
  | Some g => negb (g =? 0) && bool_decide (g ∈ seen)
  | None => false
  end.

(** [if message.grouped_id: self.seen_album_ids.add(message.grouped_id)] *)
Definition album_add (grouped_id : option Z) (seen : gset Z) : gset Z :=
  match grouped_id with
  | Some g => if g =? 0 then seen else {[g]} ∪ seen
  | None => seen
  end.

(** A block either executed [return v] or fell through to the statement
    after it. *)
Inductive flow (A B : Type) :=
| Returned (v : A)
| Fallthrough (b : B).
Arguments Returned {A B} v.
Arguments Fallthrough {A B} b.

(** ** [TelegramCloner] *)

Section Engine.

Context (cfg : Config) (P : Platform).

(** *** Platform calls *)

Definition download (message : Message) : M (option string) :=
  call (λ tr, download_media P tr message) (EvDownload (id message)).

Definition send (message : Message) (req : SendRequest) : M Z :=
  call (λ tr, send_message P tr req) (EvSend (id message) req).

Definition resolve_entity (ref : EntityRef) : M Entity :=
  call (λ tr, get_entity P tr ref) (EvGetEntity ref).

(** [await asyncio.sleep(seconds)] *)
Definition sleep (seconds : Q) : M unit := emit (EvSleep seconds).

(** [if file and os.path.exists(file): os.remove(file)] *)
Definition remove_download (file : option string) : M unit :=
  match file with
  | Some f =>
      if PyStr.truthy f then
        ex ← query (λ tr, path_exists P tr f) (EvPathExists f);
        if ex : bool then call (λ tr, os_remove P tr f) (EvRemove f)
        else mret tt
      else mret tt
  | None => mret tt
  end.

(** *** Text transform (lines 223-246) *)

(** [for original, replacement in text_replacements_dict.items():
       text = text.replace(original, replacement)] *)
Definition replace_pairs (pairs : list (string * string)) (text : string)
    : string :=
  fold_left (λ t p, PyStr.replace p.1 p.2 t) pairs text.

Definition apply_replacements (text : string) : string :=
  if REPLACE_TEXT cfg && PyStr.truthy text
  then replace_pairs (text_replacements_dict cfg) text
  else text.

Definition strip_urls (text : string) : string :=
  PyStr.strip
    (PyStr.re_sub PyStr.match_spaces " "
       (PyStr.re_sub PyStr.match_tme ""
          (PyStr.re_sub PyStr.match_url "" text))).

Definition remove_urls (text : string) : string :=
  if REMOVE_URLS cfg && PyStr.truthy text then strip_urls text else text.

Definition source_footer (source_title username : string) (message_id : Z)
    : string :=
  let source_link := "https://t.me/" +:+ username +:+ "/" +:+ pretty message_id in
  nl +:+ nl +:+ "[Original post](" +:+ source_link +:+ ") from ["
     +:+ source_title +:+ "](https://t.me/" +:+ username +:+ ")".

Definition add_source_link (source : option Entity) (message_id : Z)
    (text : string) : string :=
  if ADD_SOURCE_LINK cfg then
    match source with
    | Some (Channel source_title (Some username)) =>
        if PyStr.truthy username
        then text +:+ source_footer source_title username message_id
        else text
    | _ => text
    end
  else text.

Definition transform_text (source : option Entity) (message : Message)
    : string :=
  add_source_link source (id message)
    (remove_urls (apply_replacements (text message))).

(** *** Media (lines 248-328) *)

(** The [for attr in document.attributes: ... else: ...] loop: the stat
    key of the first attribute that breaks out, [files] when the loop runs
    to its end. *)
Fixpoint classify_attributes (attributes : list DocumentAttribute)
    : stat_key :=
  match attributes with
  | [] => files
  | DocumentAttributeVideo :: _ => videos
  | DocumentAttributeAudio voice :: _ => if voice then voices else music
  | DocumentAttributeSticker :: _ => stickers
  | DocumentAttributeAnimated :: _ => gifs
  | _ :: rest => classify_attributes rest
  end.

(** [if document.attributes: <the loop>]: an empty list is falsy and the
    loop, with its [else], is not entered. *)
Definition classify_document (attributes : list DocumentAttribute)
    : M unit :=
  match attributes with
  | [] => mret tt
  | _ => bump (classify_attributes attributes)
  end.

Definition forwarded_tag : string := nl +:+ nl +:+ "[Forwarded message]".

Definition media_failed_tag : string :=
  nl +:+ nl +:+ "[Media could not be sent]".

(** [text = f"{text}\n\nPoll: {question}"] followed by
    [text += f"\n- {option.text}"] for every answer. *)
Definition poll_fallback_text (text : string) (poll : Poll) : string :=
  fold_left (λ t option, t +:+ nl +:+ "- " +:+ PollAnswer.text option)
    (answers poll)
    (text +:+ nl +:+ nl +:+ "Poll: " +:+ question poll).

(** [f"{text}\n\nContact: {first_name} {last_name or ''}\nPhone: {phone}"] *)
Definition contact_fallback_text (text : string) (contact : Contact)
    : string :=
  text +:+ nl +:+ nl +:+ "Contact: " +:+ first_name contact +:+ " "
    +:+ default "" (last_name contact)
    +:+ nl +:+ "Phone: " +:+ phone_number contact.

Definition plain_request (text : string) (file : option string)
    (reply_to : option Z) : SendRequest :=
  {| send_text := text; send_file := file; send_reply_to := reply_to;
     send_poll := None; send_contact := None; send_forward := None |}.

(** Lines 287-297: the native poll send carries neither [file] nor
    [reply_to]. *)
Definition poll_request (text : string) (poll : Poll) : SendRequest :=
  {| send_text := if PyStr.truthy text then text else question poll;
     send_file := None; send_reply_to := None;
     send_poll := Some poll; send_contact := None; send_forward := None |}.

(** Lines 310-316. *)
Definition contact_request (text : string) (contact : Contact)
    : SendRequest :=
  {| send_text := text; send_file := None; send_reply_to := None;
     send_poll := None; send_contact := Some contact;
     send_forward := None |}.

(** Lines 349-355. *)
Definition forward_request (text : string) (file : option string)
    (reply_to : option Z) (from_entity : Entity) (post : option Z)
    : SendRequest :=
  {| send_text := text; send_file := file; send_reply_to := reply_to;
     send_poll := None; send_contact := None;
     send_forward := Some (from_entity, post) |}.

(** [self.message_map[message.id] = new_message.id; stats['cloned'] += 1] *)
Definition record_clone (message : Message) (new_message : Z) : M unit :=
  modify (λ s, set_message_map (<[id message := new_message]> (message_map s)) s);;
  bump cloned.

(** The body of the [try] of line 251.  It yields the locals [text] and
    [file] for the code after it. *)
Definition media_body (message : Message) (text : string)
    (m : MessageMedia) : M (flow (option Z) (string * option string)) :=
  match m with
  | MessageMediaPhoto =>
      file ← download message;
      bump photos;;
      mret (Fallthrough (text, file))
  | MessageMediaDocument attributes =>
      file ← download message;
      classify_document attributes;;
      mret (Fallthrough (text, file))
  | MessageMediaPoll poll =>
      bump polls;;
      try_except
        (new_message ← send message (poll_request text poll);
         record_clone message new_message;;
         mret (Returned (Some new_message)))
        is_Exception
        (λ _, mret (Fallthrough (poll_fallback_text text poll, None)))
  | MessageMediaContact contact =>
      bump contacts;;
      try_except
        (new_message ← send message (contact_request text contact);
         record_clone message new_message;;
         mret (Returned (Some new_message)))
        is_Exception
        (λ _, mret (Fallthrough (contact_fallback_text text contact, None)))
  | _ => mret (Fallthrough (text, None))
  end.

(** Lines 249-328.  The only calls of [media_body] that can raise outside
    the inner handlers are the downloads, which come before any assignment
    to [text] or [file]: the handler of line 326 resumes with both
    unchanged. *)
Definition handle_media (message : Message) (text : string)
    : M (flow (option Z) (string * option string)) :=
  match media message with
  | Some m =>
      try_except (media_body message text m) is_Exception
        (λ _, mret (Fallthrough (text, None)))
  | None => mret (Fallthrough (text, None))
  end.

(** *** Replies (lines 330-336) *)

Definition resolve_reply (message : Message) : M (option Z) :=
  match reply_to message with
  | Some header =>
      map ← gets message_map;
      mret (map !! reply_to_msg_id header)
  | None => mret None
  end.

(** *** Sending (lines 338-409) *)

(** Lines 339-381: the forward branch.  Only its last send is outside
    every [try]. *)
Definition send_forward_branch (message : Message) (fwd : MessageFwdHeader)
    (text : string) (file : option string) (reply_to : option Z) : M Z :=
  bump forwards;;
  try_except
    (match from_id fwd with
     | Some peer =>
         try_except
           (from_entity ← resolve_entity (RefPeer peer);
            send message
              (forward_request text file reply_to from_entity
                 (channel_post fwd)))
           is_Exception
           (λ _, send message
                   (plain_request (text +:+ forwarded_tag) file reply_to))
     | None =>
         send message (plain_request (text +:+ forwarded_tag) file reply_to)
     end)
    is_Exception
    (λ _, send message (plain_request (text +:+ forwarded_tag) file reply_to)).

(** Lines 383-409: the regular branch.  [Fallthrough None] is the path on
    which the local [new_message] was never assigned. *)
Definition send_regular_branch (message : Message) (text : string)
    (file : option string) (reply_to : option Z)
    : M (flow (option Z) (option Z)) :=
  try_except
    (new_message ← send message (plain_request text file reply_to);
     (if negb (truthy_file file) && negb (bool_decide (is_Some (fwd_from message)))
      then bump text_only else mret tt);;
     mret (Fallthrough (Some new_message)))
    is_Exception
    (λ _,
       if truthy_file file then
         try_except
           (new_message ← send message
              (plain_request (text +:+ media_failed_tag) None reply_to);
            mret (Fallthrough (Some new_message)))
           is_Exception
           (λ _, bump failed;; mret (Returned None))
       else mret (Fallthrough None)).

(** Lines 411-420.  Reading the unassigned [new_message] raises
    [UnboundLocalError]. *)
Definition bookkeeping (message : Message) (file : option string)
    (new_message : option Z) : M (option Z) :=
  match new_message with
  | None => raise UnboundLocalError
  | Some new_id =>
      record_clone message new_id;;
      remove_download file;;
      mret (Some new_id)
  end.

(** Lines 330-420. *)
Definition dispatch (message : Message) (text : string)
    (file : option string) : M (option Z) :=
  reply_to ← resolve_reply message;
  match fwd_from message with
  | Some fwd =>
      if negb (ANONYMIZE_FORWARDS cfg) then
        new_message ← send_forward_branch message fwd text file reply_to;
        bookkeeping message file (Some new_message)
      else
        r ← send_regular_branch message text file reply_to;
        match r with
        | Returned v => mret v
        | Fallthrough new_message => bookkeeping message file new_message
        end
  | None =>
      r ← send_regular_branch message text file reply_to;
      match r with
      | Returned v => mret v
      | Fallthrough new_message => bookkeeping message file new_message
      end
  end.

(** Lines 223-420: what follows the two guards. *)
Definition clone_message (message : Message) : M (option Z) :=
  source ← gets source_entity;
  r ← handle_media message (transform_text source message);
  match r with
  | Returned v => mret v
  | Fallthrough (text, file) => dispatch message text file
  end.

(** The body of the outer [try] (lines 205-420). *)
Definition process_message_body (message : Message) : M (option Z) :=
  processed ← gets processed_messages_ids;
  if decide (id message ∈ processed) then mret None
  else
    modify (λ s, set_processed ({[id message]} ∪ processed_messages_ids s) s);;
    seen ← gets seen_album_ids;
    if album_seen (grouped_id message) seen
    then bump skipped;; mret None
    else
      modify (λ s, set_seen (album_add (grouped_id message) (seen_album_ids s)) s);;
      clone_message message.

(** [process_message] with its handlers (lines 422-440).  The two
    rate-limit handlers call [process_message] again; [fuel] bounds the
    depth of that recursion. *)
Fixpoint process_message (fuel : nat) (message : Message) : M (option Z) :=
  match fuel with
  | O => λ s, (OutOfFuel, s)
  | S fuel' => λ s,
      match process_message_body message s with
      | (Raise (FloodWaitError seconds), s') =>
          (sleep (inject_Z seconds);; process_message fuel' message) s'
      | (Raise ChatWriteForbiddenError, s')
      | (Raise ChatAdminRequiredError, s') =>
          (bump failed;; mret None) s'
      | (Raise (SlowModeWaitError seconds), s') =>
          (sleep (inject_Z seconds);; process_message fuel' message) s'
      | (Raise e, s') =>
          if is_Exception e then (bump failed;; mret None) s'
          else (Raise e, s')
      | r => r
      end
  end.

(** *** [connect] (lines 145-164) *)

Definition connect : M unit :=
  call (client_start P) EvStart;;
  source ← resolve_entity (RefName (SOURCE_ENTITY cfg));
  modify (set_source_entity source);;
  destination ← resolve_entity (RefName (DESTINATION_ENTITY cfg));
  modify (set_destination_entity destination).

(** *** [get_messages] (lines 166-200) *)

Definition iter_params : IterParams :=
  {| reverse := true;
     limit := if MAX_MESSAGES cfg =? 0 then None else Some (MAX_MESSAGES cfg);
     min_id := if 0 <? START_FROM_MESSAGE_ID cfg
               then Some (START_FROM_MESSAGE_ID cfg - 1) else None;
     max_id := if 0 <? END_AT_MESSAGE_ID cfg
               then Some (END_AT_MESSAGE_ID cfg) else None |}.

(** The [async for] of line 185 over the items the iterator yields;
    [pending] is the exception the iterator raises after them, if any. *)
Fixpoint collect_messages (items : list FetchedItem) (pending : option exn)
    (messages : list Message) : M (list Message) :=
  match items with
  | [] =>
      match pending with
      | Some e => raise e
      | None => mret messages
      end
  | ItemMessage m :: rest =>
      bump total;;
      let messages := (messages ++ [m])%list in
      if (0 <? MAX_MESSAGES cfg) && (MAX_MESSAGES cfg <=? Z.of_nat (List.length messages))
      then mret messages
      else collect_messages rest pending messages
  | _ :: rest => collect_messages rest pending messages
  end.

Definition get_messages : M (list Message) :=
  fetched ← query (λ tr, iter_messages P tr iter_params)
              (EvIterMessages iter_params);
  collect_messages fetched.1 fetched.2 [].

(** *** [start_cloning] (lines 442-495) *)

(** One iteration of the [for] of line 460: [i] is the index and [n] the
    length of [messages]. *)
Definition clone_one (fuel : nat) (i n : nat) (message : Message) : M unit :=
  try_except
    ((if (0 <? i)%nat && negb (Qle_bool (DELAY_BETWEEN_MESSAGES cfg) 0)
      then sleep (DELAY_BETWEEN_MESSAGES cfg) else mret tt);;
     process_message fuel message;;
     if ((i + 1) mod 10 =? 0)%nat || (i =? n - 1)%nat
     then emit (EvProgress (i + 1) n) else mret tt)
    is_Exception
    (λ _, mret tt).

Fixpoint clone_loop (fuel : nat) (i n : nat) (messages : list Message)
    : M unit :=
  match messages with
  | [] => mret tt
  | message :: rest =>
      clone_one fuel i n message;;
      clone_loop fuel (S i) n rest
  end.

(** The [finally] of lines 486-495: emptying [downloads/] swallows every
    error; [disconnect] does not. *)
Definition cleanup : M unit :=
  emit EvCleanDownloads;;
  call (client_disconnect P) EvDisconnect.

Definition start_cloning (fuel : nat) : M Stats :=
  try_finally
    (connect;;
     messages ← get_messages;
     match messages with
     | [] => gets stats
     | _ =>
         clone_loop fuel 0 (List.length messages) messages;;
         gets stats
     end)
    cleanup.

(** *** [main] (lines 497-537) *)

Definition report (st : Stats) : list string :=
  [ nl +:+ "===== Cloning Completed! =====";
    "Total messages processed: " +:+ pretty (stat total st);
    "Successfully cloned: " +:+ pretty (stat cloned st);
    "Skipped: " +:+ pretty (stat skipped st);
    "Failed: " +:+ pretty (stat failed st);
    nl +:+ "Content types:";
    "Photos: " +:+ pretty (stat photos st);
    "Videos: " +:+ pretty (stat videos st);
    "Files: " +:+ pretty (stat files st);
    "Voice messages: " +:+ pretty (stat voices st);
    "Music: " +:+ pretty (stat music st);
    "GIFs: " +:+ pretty (stat gifs st);
    "Stickers: " +:+ pretty (stat stickers st);
    "Polls: " +:+ pretty (stat polls st);
    "Contacts: " +:+ pretty (stat contacts st);
    "Albums: " +:+ pretty (stat albums st);
    "Forwards: " +:+ pretty (stat forwards st);
    "Text only: " +:+ pretty (stat text_only st) ].

Arguments report : simpl never.

Definition print_lines (lines : list string) : M unit :=
  modify (λ s, foldl (λ s line, log (EvPrint line) s) s lines).

(** [main] returns the exit code.  It starts from a fresh
    [TelegramCloner]. *)
Definition main (fuel : nat) : M Z :=
  try_except
    (emit EvBanner;;
     st ← start_cloning fuel;
     print_lines (report st);;
     mret 0)
    (λ _, true)
    (λ e, match e with
          | KeyboardInterrupt =>
              emit (EvPrint (nl +:+ "Process interrupted by user"));;
              mret 130
          | _ =>
              emit (EvPrintCritical e);;
              mret 1
          end).

End Engine.

Definition print_of (ev : event) : option string :=
  match ev with EvPrint line => Some line | _ => None end.

(** The lines printed on standard output, oldest first. *)
Definition printed (s : State) : list string :=
  rev (omap print_of (trace s)).

(** ** Vocabulary of the statements *)

(** [Q] holds of the outcome and final state of [m] run from [s]. *)
Definition wp {A} (m : M A) (Q : result A → State → Prop) (s : State) : Prop :=
  Q (m s).1 (m s).2.

(** Whatever its outcome, [m] takes a state to an [R]-related one. *)
Definition frames (R : State → State → Prop) {A} (m : M A) : Prop :=
  ∀ s, R s (m s).2.

(** Whatever its outcome, [m] keeps the invariant [I]. *)
Definition preserves (I : State → Prop) {A} (m : M A) : Prop :=
  ∀ s, I s → I (m s).2.

(** [m] never runs out of fuel, and raises only exceptions in [ok]. *)
Definition raises (ok : exn → Prop) {A} (m : M A) : Prop :=
  ∀ s, match (m s).1 with
       | Return _ => True
       | Raise e => ok e
       | OutOfFuel => False
       end.

(** What the body of [process_message] may raise when the platform raises
    only exceptions in [allowed]. *)
Definition or_unbound (allowed : exn → Prop) (e : exn) : Prop :=
  allowed e ∨ e = UnboundLocalError.

(** What escapes the handlers of [process_message]. *)
Definition interrupts (allowed : exn → Prop) (e : exn) : Prop :=
  allowed e ∧ is_Exception e = false.


(** [s] starts with [p]. *)
Definition starts_with (p s : string) : Prop := ∃ rest, s = p +:+ rest.


Definition is_send (ev : event) : bool :=
  match ev with EvSend _ _ _ => true | _ => false end.

(** A deterministic mock of the platform: the iterator yields [items];
    the n-th call of [send_message] is answered by the n-th entry of
    [sends], and by a fresh id [1000 + n] once the script is used up;
    every download yields [downloads/f]. *)
Definition mock (items : list FetchedItem) (sends : list (exn + Z))
    : Platform :=
  {| client_start := λ _, inr tt;
     get_entity := λ _ _, inr (Chat "chat");
     iter_messages := λ _ _, (items, None);
     download_media := λ _ _, inr (Some "downloads/f");
     send_message := λ tr _,
       let n := List.length (filter (λ ev, is_send ev = true) tr) in
       nth n sends (inr (1000 + Z.of_nat n));
     path_exists := λ _ _, true;
     os_remove := λ _ _, inr tt;
     client_disconnect := λ _, inr tt |}.

(** Every toggle of the text transform off, no bound on the fetch. *)
Definition plain_config : Config :=
  {| SOURCE_ENTITY := "source"; DESTINATION_ENTITY := "destination";
     MAX_MESSAGES := 0; DELAY_BETWEEN_MESSAGES := 2%Q;
     START_FROM_MESSAGE_ID := 0; END_AT_MESSAGE_ID := 0;
     REPLACE_TEXT := false; text_replacements_dict := [];
     ADD_SOURCE_LINK := false; REMOVE_URLS := false;
     ANONYMIZE_FORWARDS := false |}.

Definition text_message (i : Z) (t : string) : Message :=
  {| id := i; text := t; media := None; reply_to := None;
     grouped_id := None; fwd_from := None |}.




(** The classifier as section 4.1 words it: the content kind an attribute
    stands for, if any, and the kind of the first attribute that has
    one. *)
Definition attribute_kind (a : DocumentAttribute) : option stat_key :=
  match a with
  | DocumentAttributeVideo => Some videos
  | DocumentAttributeAudio true => Some voices
  | DocumentAttributeAudio false => Some music
  | DocumentAttributeSticker => Some stickers
  | DocumentAttributeAnimated => Some gifs
  | _ => None
  end.

Definition first_match (attributes : list DocumentAttribute)
    : option stat_key :=
  head (omap attribute_kind attributes).

Definition forwarded_message (i : Z) (t : string) : Message :=
  {| id := i; text := t; media := None; reply_to := None;
     grouped_id := None;
     fwd_from := Some {| from_id := None; channel_post := None |} |}.

Definition album_message (i g : Z) : Message :=
  {| id := i; text := ""; media := Some MessageMediaPhoto; reply_to := None;
     grouped_id := Some g; fwd_from := None |}.



Definition document_message (i : Z) (attributes : list DocumentAttribute)
    : Message :=
  {| id := i; text := ""; media := Some (MessageMediaDocument attributes);
     reply_to := None; grouped_id := None; fwd_from := None |}.

(** Properties of a stretch of history: every send in it is made for
    source message [i]; no send in it succeeded; exactly the destination
    id [d] was obtained for [i]; a send for [i] was attempted. *)
Definition sends_of (i : Z) (evs : list event) : Prop :=
  ∀ k req ans, EvSend k req ans ∈ evs → k = i.

Definition no_success (evs : list event) : Prop :=
  ∀ k req d, EvSend k req (inr d) ∉ evs.

Definition one_success (i d : Z) (evs : list event) : Prop :=
  (∃ req, EvSend i req (inr d) ∈ evs)
  ∧ ∀ k req d', EvSend k req (inr d') ∈ evs → d' = d.

Definition attempted (i : Z) (evs : list event) : Prop :=
  ∃ req ans, EvSend i req ans ∈ evs.

(** A request of the generic send path for [text]: the text sent extends
    [text], the reply target is [reply], the attachment is [file] or
    nothing, and no poll or contact rides along. *)
Definition generic_request (text : string) (file : option string)
    (reply : option Z) (req : SendRequest) : Prop :=
  starts_with text (send_text req) ∧ send_reply_to req = reply
  ∧ (send_file req = file ∨ send_file req = None)
  ∧ send_poll req = None ∧ send_contact req = None.

(** The destination id [resolve_reply] yields in state [s]. *)
Definition resolved (message : Message) (s : State) : option Z :=
  match reply_to message with
  | Some header => message_map s !! reply_to_msg_id header
  | None => None
  end.

(** What the handlers make of the outcome of the body.  A rate-limit
    signal that reaches them is answered by a sleep and a second
    invocation, which the duplicate guard stops at once. *)
Definition handled (outcome : result (option Z) * State)
    : result (option Z) * State :=
  let '(r, s1) := outcome in
  match r with
  | Raise (FloodWaitError seconds) | Raise (SlowModeWaitError seconds) =>
      (Return None, log (EvSleep (inject_Z seconds)) s1)
  | Raise KeyboardInterrupt => (Raise KeyboardInterrupt, s1)
  | Raise _ => (Return None, set_stats (incr failed (stats s1)) s1)
  | _ => (r, s1)
  end.

(** The states a run goes through: from a fresh [TelegramCloner], by
    [connect], [get_messages], invocations of [process_message], and the
    steps of the driver that only add to the history (sleeping, printing
    progress, cleaning up). *)
Inductive reachable (cfg : Config) (P : Platform) : State → Prop :=
| reachable_init : reachable cfg P init
| reachable_connect s :
    reachable cfg P s → reachable cfg P (connect cfg P s).2
| reachable_get_messages s :
    reachable cfg P s → reachable cfg P (get_messages cfg P s).2
| reachable_process fuel message s :
    reachable cfg P s →
    reachable cfg P (process_message cfg P (S (S fuel)) message s).2
| reachable_log ev s :
    is_send ev = false → reachable cfg P s → reachable cfg P (log ev s).

(** The mapping agrees with the history: sends are made for processed
    ids only, and the entries are exactly the successful sends. *)
Definition consistent (s : State) : Prop :=
  (∀ k req ans, EvSend k req ans ∈ trace s → k ∈ processed_messages_ids s)
  ∧ (∀ k d, message_map s !! k = Some d
            ↔ ∃ req, EvSend k req (inr d) ∈ trace s).

(** Steps that touch neither the mapping nor the processed ids and send
    nothing. *)
Definition quiet (s s' : State) : Prop :=
  message_map s' = message_map s
  ∧ processed_messages_ids s' = processed_messages_ids s
  ∧ ∃ evs, trace s' = (evs ++ trace s)%list
      ∧ ∀ ev, ev ∈ evs → is_send ev = false.

(** What [start_cloning] never undoes: processed ids and seen album ids
    are only added, the history only grows, [stats['albums']] keeps its
    value, and nothing is printed. *)
Definition grows (s s' : State) : Prop :=
  processed_messages_ids s ⊆ processed_messages_ids s'
  ∧ seen_album_ids s ⊆ seen_album_ids s'
  ∧ stat albums (stats s') = stat albums (stats s)
  ∧ printed s' = printed s
  ∧ ∃ evs, trace s' = (evs ++ trace s)%list.

(** What the code after the two guards leaves alone. *)
Definition same_guards (s s' : State) : Prop :=
  processed_messages_ids s' = processed_messages_ids s
  ∧ seen_album_ids s' = seen_album_ids s
  ∧ source_entity s' = source_entity s.

(** The state right after the entry mark of line 209. *)
Definition entered (message : Message) (s : State) : State :=
  set_processed ({[id message]} ∪ processed_messages_ids s) s.

(** ** Vocabulary of the further statements *)

(** The messages among the items an iterator yields, in order. *)
Definition fetched_messages (items : list FetchedItem) : list Message :=
  omap (λ item, match item with ItemMessage m => Some m | _ => None end)
    items.

(** What [get_messages] returns when it returns: everything fetched, or
    its first [MAX_MESSAGES] entries when that bound is positive. *)
Definition bounded (max_messages : Z) (messages : list Message)
    : list Message :=
  if 0 <? max_messages then take (Z.to_nat max_messages) messages
  else messages.

Definition is_success (ev : event) : bool :=
  match ev with EvSend _ _ (inr _) => true | _ => false end.

(** How many entries of a stretch of history satisfy [f]. *)
Fixpoint tally (f : event → bool) (evs : list event) : nat :=
  match evs with
  | [] => 0
  | ev :: rest => (if f ev then 1 else 0) + tally f rest
  end%nat.

(** The source ids of the sends of a stretch of history. *)
Definition send_sources (evs : list event) : list Z :=
  omap (λ ev, match ev with EvSend src _ _ => Some src | _ => None end) evs.

(** No counter of [stats] is lower in [s'] than in [s]. *)
Definition stats_le (s s' : State) : Prop :=
  ∀ k, (stat k (stats s) ≤ stat k (stats s'))%nat.

(** Steps that leave the mapping and [stats['cloned']] alone. *)
Definition keeps_clones (s s' : State) : Prop :=
  message_map s' = message_map s
  ∧ stat cloned (stats s') = stat cloned (stats s).

(** A configuration that differs from [plain_config] in the fetch bound. *)
Definition limited_config (max_messages : Z) : Config :=
  {| SOURCE_ENTITY := "source"; DESTINATION_ENTITY := "destination";
     MAX_MESSAGES := max_messages; DELAY_BETWEEN_MESSAGES := 2%Q;
     START_FROM_MESSAGE_ID := 0; END_AT_MESSAGE_ID := 0;
     REPLACE_TEXT := false; text_replacements_dict := [];
     ADD_SOURCE_LINK := false; REMOVE_URLS := false;
     ANONYMIZE_FORWARDS := false |}.

(** A platform like [mock items []] whose iterator raises [e] after the
    items. *)
Definition mock_broken_iterator (items : list FetchedItem) (e : exn)
    : Platform :=
  {| client_start := λ _, inr tt;
     get_entity := λ _ _, inr (Chat "chat");
     iter_messages := λ _ _, (items, Some e);
     download_media := λ _ _, inr (Some "downloads/f");
     send_message := λ tr _, inr 1000;
     path_exists := λ _ _, true;
     os_remove := λ _ _, inr tt;
     client_disconnect := λ _, inr tt |}.

(** [plain_config] with forwards anonymized. *)
Definition anonymous_config : Config :=
  {| SOURCE_ENTITY := "source"; DESTINATION_ENTITY := "destination";
     MAX_MESSAGES := 0; DELAY_BETWEEN_MESSAGES := 2%Q;
     START_FROM_MESSAGE_ID := 0; END_AT_MESSAGE_ID := 0;
     REPLACE_TEXT := false; text_replacements_dict := [];
     ADD_SOURCE_LINK := false; REMOVE_URLS := false;
     ANONYMIZE_FORWARDS := true |}.

(** A forwarded message with a known origin. *)
Definition forwarded_from (i peer : Z) (t : string) : Message :=
  {| id := i; text := t; media := None; reply_to := None;
     grouped_id := None;
     fwd_from := Some {| from_id := Some peer; channel_post := Some 9 |} |}.

(** A text message that replies to source message [target]. *)
Definition text_reply (i target : Z) (t : string) : Message :=
  {| id := i; text := t; media := None;
     reply_to := Some {| reply_to_msg_id := target |};
     grouped_id := None; fwd_from := None |}.

(** The value of [TEXT_REPLACEMENTS] that lists [pairs] the way the
    parser of lines 89-95 reads them: [original:replacement] entries
    separated by commas. *)
Fixpoint render_text_replacements (pairs : list (string * string))
    : string :=
  match pairs with
  | [] => ""
  | (original, replacement) :: rest =>
      match rest with
      | [] => original +:+ ":" +:+ replacement
      | _ => original +:+ ":" +:+ replacement +:+ ","
               +:+ render_text_replacements rest
      end
  end.

(** What an entry has to avoid so that the parser reads it back: commas,
    a colon in the original, white space at either end. *)
Definition plain_entry (p : string * string) : Prop :=
  PyStr.contains "," p.1 = false ∧ PyStr.contains ":" p.1 = false
  ∧ PyStr.contains "," p.2 = false
  ∧ PyStr.strip p.1 = p.1 ∧ PyStr.strip p.2 = p.2.

(** What every entry of the parsed dictionary satisfies: no colon in
    the original, no comma on either side. *)
Definition separator_free (p : string * string) : Prop :=
  PyStr.contains ":" p.1 = false ∧ PyStr.contains "," p.1 = false
  ∧ PyStr.contains "," p.2 = false.

(** No match of the pattern starts anywhere in [s]. *)
Definition clean (matcher : string → option nat) (s : string) : Prop :=
  ∀ n, matcher (PyStr.drop n s) = None.

(** The word [s] starts with, up to its first white-space character, is
    a prefix of [t]. *)
Fixpoint word_prefix (s t : string) : bool :=
  match s with
  | "" => true
  | String c s' =>
      if PyStr.isspace c then true
      else match t with
           | String d t' => Ascii.eqb c d && word_prefix s' t'
           | "" => false
           end
  end.

(** Every word of [out], from any position on, starts some suffix of
    [s]: [out] is [s] with words cut short and white space removed. *)
Definition thin (out s : string) : Prop :=
  ∀ n, ∃ n', word_prefix (PyStr.drop n out) (PyStr.drop n' s) = true.

(** A pattern that ends in [\S+] and matches no white space: a match
    runs to the end of the word, and whether there is one depends on the
    word only. *)
Record wordy (matcher : string → option nat) : Prop := {
  wordy_run : ∀ s n,
    matcher s = Some n → n = PyStr.nonspace_run s ∧ n ≠ 0%nat;
  wordy_mono : ∀ s' s,
    word_prefix s' s = true → matcher s = None → matcher s' = None }.

(** [plain_config] with URL removal on. *)
Definition url_free_config : Config :=
  {| SOURCE_ENTITY := "source"; DESTINATION_ENTITY := "destination";
     MAX_MESSAGES := 0; DELAY_BETWEEN_MESSAGES := 2%Q;
     START_FROM_MESSAGE_ID := 0; END_AT_MESSAGE_ID := 0;
     REPLACE_TEXT := false; text_replacements_dict := [];
     ADD_SOURCE_LINK := false; REMOVE_URLS := true;
     ANONYMIZE_FORWARDS := false |}.

(** The waits of [asyncio.sleep], and the two signals whose handlers
    wait (lines 422 and 432). *)
Definition is_sleep (ev : event) : bool :=
  match ev with EvSleep _ => true | _ => false end.

Definition is_rate_limit (e : exn) : bool :=
  match e with
  | FloodWaitError _ | SlowModeWaitError _ => true
  | _ => false
  end.

(** The three outcome counters of the final report taken together. *)
Definition outcomes (s : State) : nat :=
  (stat cloned (stats s) + stat skipped (stats s)
   + stat failed (stats s))%nat.

(** Steps that add no wait to the history and leave [stats['total']] and
    [stats['skipped']] alone. *)
Definition no_wait (s s' : State) : Prop :=
  stat total (stats s') = stat total (stats s)
  ∧ stat skipped (stats s') = stat skipped (stats s)
  ∧ ∃ evs, trace s' = (evs ++ trace s)%list ∧ tally is_sleep evs = 0%nat.

(** Steps that leave [stats['total']] alone. *)
Definition same_total (s s' : State) : Prop :=
  stat total (stats s') = stat total (stats s).

(** Steps that leave every counter alone. *)
Definition same_stats (s s' : State) : Prop := stats s' = stats s.

(** Steps that change no counter other than [stats['total']]. *)
Definition same_outcomes (s s' : State) : Prop := outcomes s' = outcomes s.

(** ** The monad: rules for [wp] *)

Section WpRules.

Context {A B : Type}.

Lemma wp_ret (a : A) Q s : Q (Return a) s → wp (mret a) Q s.
Proof. done. Qed.

Lemma wp_raise (e : exn) (Q : result A → State → Prop) s :
  Q (Raise e) s → wp (raise e) Q s.
Proof. done. Qed.

Lemma wp_gets (f : State → A) Q s : Q (Return (f s)) s → wp (gets f) Q s.
Proof. done. Qed.

Lemma wp_modify f Q s : Q (Return tt) (f s) → wp (modify f) Q s.
Proof. done. Qed.

Lemma wp_bind (m : M A) (f : A → M B) Q s :
  wp m (λ r s', match r with
                | Return a => wp (f a) Q s'
                | Raise e => Q (Raise e) s'
                | OutOfFuel => Q OutOfFuel s'
                end) s →
  wp (m ≫= f) Q s.
Proof.
  unfold wp, mbind, M_bind. by destruct (m s) as [[a|e|] s'].
Qed.

Lemma wp_try (body : M A) (catches : exn → bool) (handler : exn → M A) Q s :
  wp body (λ r s', match r with
                   | Raise e =>
                       if catches e then wp (handler e) Q s'
                       else Q (Raise e) s'
                   | _ => Q r s'
                   end) s →
  wp (try_except body catches handler) Q s.
Proof.
  unfold wp, try_except. destruct (body s) as [[a|e|] s']; simpl; try done.
  by destruct (catches e).
Qed.

Lemma wp_call (ask : list event → exn + A) ev Q s :
  (∀ r, ask (trace s) = r →
        match r with
        | inl e => Q (Raise e) (log (ev r) s)
        | inr a => Q (Return a) (log (ev r) s)
        end) →
  wp (call ask ev) Q s.
Proof.
  intros H. specialize (H _ eq_refl). unfold wp, call.
  by destruct (ask (trace s)).
Qed.

Lemma wp_query (ask : list event → A) ev Q s :
  (∀ r, ask (trace s) = r → Q (Return r) (log (ev r) s)) →
  wp (query ask ev) Q s.
Proof. intros H. by apply H. Qed.

Lemma wp_bind_any (m : M A) (f : A → M B) (Q : result B → State → Prop) s :
  (∀ a s', wp (f a) Q s') → (∀ e s', Q (Raise e) s') →
  (∀ s', Q OutOfFuel s') → wp (m ≫= f) Q s.
Proof.
  intros Hf He Ho. unfold wp, mbind, M_bind.
  destruct (m s) as [[a|e|] s']; simpl; [apply Hf | apply He | apply Ho].
Qed.

Lemma wp_mono (m : M A) (Q Q' : result A → State → Prop) s :
  wp m Q s → (∀ r s', Q r s' → Q' r s') → wp m Q' s.
Proof. unfold wp. auto. Qed.

End WpRules.

Ltac wp_unfold :=
  unfold download, send, resolve_entity, sleep, emit, bump, record_clone.

Ltac wp_step :=
  lazymatch goal with
  | |- wp (mret _) _ _ => apply wp_ret
  | |- wp (raise _) _ _ => apply wp_raise
  | |- wp (gets _) _ _ => apply wp_gets
  | |- wp (modify _) _ _ => apply wp_modify
  | |- wp (_ ≫= _) _ _ => apply wp_bind
  | |- wp (try_except _ _ _) _ _ => apply wp_try
  | |- wp (call _ _) _ _ => apply wp_call; intros [?|?] ?
  | |- wp (query _ _) _ _ => apply wp_query; intros ? ?
  | |- wp (match ?x with _ => _ end) _ _ => destruct x eqn:?
  | |- match ?x with _ => _ end => destruct x eqn:?
  end; cbv beta iota.

Ltac wp_run := wp_unfold; cbv beta iota; repeat (wp_step; wp_unfold).

(** Exhibit the events added to a history. *)
Ltac new_events t t0 :=
  lazymatch t with
  | t0 => constr:(@nil event)
  | ?x :: ?t' => let r := new_events t' t0 in constr:(x :: r)
  end.

Ltac exists_events :=
  cbn [trace log set_stats set_message_map set_processed set_seen
       set_source_entity set_destination_entity];
  lazymatch goal with
  | |- ∃ evs, ?t = (evs ++ ?t0)%list ∧ _ =>
      let d := new_events t t0 in exists d; split; [reflexivity|]
  end.

(** ** The monad: rules for [frames] *)

Section FrameRules.

Context (R : State → State → Prop) `{!Reflexive R} `{!Transitive R}.

Lemma frames_ret {A} (a : A) : frames R (mret a).
Proof. intros s. simpl. reflexivity. Qed.

Lemma frames_raise {A} e : frames R (@raise A e).
Proof. intros s. simpl. reflexivity. Qed.

Lemma frames_gets {A} (f : State → A) : frames R (gets f).
Proof. intros s. simpl. reflexivity. Qed.

Lemma frames_modify f : (∀ s, R s (f s)) → frames R (modify f).
Proof. intros H s. apply H. Qed.

Lemma frames_bind {A B} (m : M A) (f : A → M B) :
  frames R m → (∀ a, frames R (f a)) → frames R (m ≫= f).
Proof.
  intros Hm Hf s. specialize (Hm s). unfold mbind, M_bind.
  destruct (m s) as [[a|e|] s']; simpl in *; try done.
  etransitivity; [exact Hm | apply Hf].
Qed.

Lemma frames_try {A} (body : M A) (catches : exn → bool)
    (handler : exn → M A) :
  frames R body → (∀ e, frames R (handler e)) →
  frames R (try_except body catches handler).
Proof.
  intros Hb Hh s. specialize (Hb s). unfold try_except.
  destruct (body s) as [[a|e|] s']; simpl in *; try done.
  destruct (catches e); simpl; [|done].
  etransitivity; [exact Hb | apply Hh].
Qed.

Lemma frames_finally {A} (body : M A) (final : M unit) :
  frames R body → frames R final → frames R (try_finally body final).
Proof.
  intros Hb Hf s. specialize (Hb s). unfold try_finally.
  destruct (body s) as [r s']. specialize (Hf s').
  destruct (final s') as [[a|e|] s'']; simpl in *; by etransitivity.
Qed.

Lemma frames_query {A} (ask : list event → A) ev :
  (∀ r s, R s (log (ev r) s)) → frames R (query ask ev).
Proof. intros H s. apply H. Qed.

Lemma frames_call {A} (ask : list event → exn + A) ev :
  (∀ r s, R s (log (ev r) s)) → frames R (call ask ev).
Proof.
  intros H s. unfold call. destruct (ask (trace s)); apply H.
Qed.

End FrameRules.

(** ** Framing relations *)

Lemma grows_refl : Reflexive grows.
Proof. intros s. repeat split; try done. by exists []. Qed.

#[local] Existing Instance grows_refl.

Lemma grows_trans : Transitive grows.
Proof.
  intros s1 s2 s3 (?&?&?&?&evs&?) (?&?&?&?&evs'&E). repeat split.
  - set_solver.
  - set_solver.
  - congruence.
  - congruence.
  - exists (evs' ++ evs)%list. rewrite E. rewrite <- app_assoc. congruence.
Qed.

#[local] Existing Instance grows_trans.

Lemma same_guards_refl : Reflexive same_guards.
Proof. by intros s. Qed.

#[local] Existing Instance same_guards_refl.

Lemma same_guards_trans : Transitive same_guards.
Proof. intros s1 s2 s3 (?&?&?) (?&?&?). repeat split; congruence. Qed.

#[local] Existing Instance same_guards_trans.

Lemma stat_incr k k' st :
  stat k' (incr k st) = if decide (k = k') then S (stat k' st) else stat k' st.
Proof. destruct k, k'; reflexivity. Qed.

Lemma stat_incr_eq k st : stat k (incr k st) = S (stat k st).
Proof. rewrite stat_incr. by destruct (decide (k = k)). Qed.

Lemma stat_incr_ne k k' st : k ≠ k' → stat k' (incr k st) = stat k' st.
Proof. intros. rewrite stat_incr. by destruct (decide (k = k')). Qed.

Lemma classify_attributes_kind attributes :
  classify_attributes attributes ∈ [videos; voices; music; stickers; gifs; files].
Proof.
  induction attributes as [|[| [] | | | |] rest IH]; simpl;
    try exact IH; rewrite !elem_of_cons; tauto.
Qed.

Lemma classify_attributes_not_albums attributes :
  classify_attributes attributes ≠ albums.
Proof.
  intros E. pose proof (classify_attributes_kind attributes) as H.
  rewrite E, !elem_of_cons, elem_of_nil in H.
  repeat (destruct H as [H|H]; [discriminate|]). done.
Qed.

Lemma grows_log ev s : print_of ev = None → grows s (log ev s).
Proof.
  intros E. repeat split; try done.
  - unfold printed. simpl. by rewrite E.
  - by exists [ev].
Qed.

Lemma grows_bump k s : k ≠ albums → grows s (set_stats (incr k (stats s)) s).
Proof.
  intros. repeat split; try done.
  - cbn [stats set_stats]. by apply stat_incr_ne.
  - by exists [].
Qed.

(** ** The monad: rules for [preserves] *)

Section PreservesRules.

Context (I : State → Prop).

Lemma preserves_ret {A} (a : A) : preserves I (mret a).
Proof. by intros s. Qed.

Lemma preserves_raise {A} e : preserves I (@raise A e).
Proof. by intros s. Qed.

Lemma preserves_gets {A} (f : State → A) : preserves I (gets f).
Proof. by intros s. Qed.

Lemma preserves_modify f : (∀ s, I s → I (f s)) → preserves I (modify f).
Proof. intros H s. apply H. Qed.

Lemma preserves_bind {A B} (m : M A) (f : A → M B) :
  preserves I m → (∀ a, preserves I (f a)) → preserves I (m ≫= f).
Proof.
  intros Hm Hf s Hs. specialize (Hm s Hs). unfold mbind, M_bind.
  destruct (m s) as [[a|e|] s']; simpl in *; try done. by apply Hf.
Qed.

Lemma preserves_try {A} (body : M A) (catches : exn → bool)
    (handler : exn → M A) :
  preserves I body → (∀ e, preserves I (handler e)) →
  preserves I (try_except body catches handler).
Proof.
  intros Hb Hh s Hs. specialize (Hb s Hs). unfold try_except.
  destruct (body s) as [[a|e|] s']; simpl in *; try done.
  destruct (catches e); simpl; [|done]. by apply Hh.
Qed.

Lemma preserves_finally {A} (body : M A) (final : M unit) :
  preserves I body → preserves I final →
  preserves I (try_finally body final).
Proof.
  intros Hb Hf s Hs. specialize (Hb s Hs). unfold try_finally.
  destruct (body s) as [r s']. specialize (Hf s' Hb).
  by destruct (final s') as [[a|e|] s''].
Qed.

Lemma preserves_query {A} (ask : list event → A) ev :
  (∀ r s, I s → I (log (ev r) s)) → preserves I (query ask ev).
Proof. intros H s. apply H. Qed.

Lemma preserves_call {A} (ask : list event → exn + A) ev :
  (∀ r s, I s → I (log (ev r) s)) → preserves I (call ask ev).
Proof.
  intros H s Hs. unfold call. destruct (ask (trace s)); by apply H.
Qed.

End PreservesRules.

Ltac preserves_step side :=
  first
    [ apply preserves_ret | apply preserves_raise | apply preserves_gets
    | apply preserves_bind | apply preserves_try | apply preserves_finally
    | apply preserves_modify; intros; side
    | apply preserves_call; intros; side
    | apply preserves_query; intros; side
    | match goal with
      | |- preserves _ (match ?x with _ => _ end) => destruct x
      | |- ∀ _, _ => intros
      end ].

(** ** The monad: rules for [raises] *)

Section RaisesRules.

Context (ok : exn → Prop).

Lemma raises_ret {A} (a : A) : raises ok (mret a).
Proof. by intros s. Qed.

Lemma raises_raise {A} e : ok e → raises ok (@raise A e).
Proof. by intros H s. Qed.

Lemma raises_gets {A} (f : State → A) : raises ok (gets f).
Proof. by intros s. Qed.

Lemma raises_modify f : raises ok (modify f).
Proof. by intros s. Qed.

Lemma raises_query {A} (ask : list event → A) ev : raises ok (query ask ev).
Proof. by intros s. Qed.

Lemma raises_call {A} (ask : list event → exn + A) ev :
  (∀ tr e, ask tr = inl e → ok e) → raises ok (call ask ev).
Proof.
  intros H s. unfold call. specialize (H (trace s)).
  destruct (ask (trace s)); simpl; [by apply H | done].
Qed.

Lemma raises_bind {A B} (m : M A) (f : A → M B) :
  raises ok m → (∀ a, raises ok (f a)) → raises ok (m ≫= f).
Proof.
  intros Hm Hf s. specialize (Hm s). unfold mbind, M_bind.
  destruct (m s) as [[a|e|] s']; simpl in *; try done. apply Hf.
Qed.

Lemma raises_try {A} (ok1 : exn → Prop) (body : M A) (catches : exn → bool)
    (handler : exn → M A) :
  raises ok1 body →
  (∀ e, ok1 e → catches e = true → raises ok (handler e)) →
  (∀ e, ok1 e → catches e = false → ok e) →
  raises ok (try_except body catches handler).
Proof.
  intros Hb Hh Hk s. specialize (Hb s). unfold try_except.
  destruct (body s) as [[a|e|] s']; simpl in *; try done.
  destruct (catches e) eqn:E; [by apply Hh | by apply Hk].
Qed.

Lemma raises_try_same {A} (body : M A) (catches : exn → bool)
    (handler : exn → M A) :
  raises ok body → (∀ e, raises ok (handler e)) →
  raises ok (try_except body catches handler).
Proof. intros Hb Hh. apply (raises_try ok); auto. Qed.



End RaisesRules.

Ltac raises_step side :=
  first
    [ apply raises_ret | apply raises_gets | apply raises_modify
    | apply raises_query | apply raises_bind | apply raises_try_same
    | apply raises_raise; side
    | apply raises_call; side
    | match goal with
      | |- raises _ (match ?x with _ => _ end) => destruct x
      | |- ∀ _, _ => intros
      end ].

Lemma classify_attributes_other attributes k :
  k ∉ [videos; voices; music; stickers; gifs; files] →
  classify_attributes attributes ≠ k.
Proof.
  intros Hk E. apply Hk. rewrite <- E. apply classify_attributes_kind.
Qed.

Ltac stat_side :=
  first
    [ discriminate
    | apply classify_attributes_other; rewrite !elem_of_cons, elem_of_nil;
      intros ?; repeat match goal with H : _ ∨ _ |- _ => destruct H end;
      done ].

Ltac state_simpl :=
  cbn [stats message_map trace processed_messages_ids seen_album_ids
       source_entity destination_entity log set_stats set_message_map
       set_processed set_seen set_source_entity set_destination_entity
       fst snd];
  rewrite ?stat_incr_eq;
  repeat (rewrite stat_incr_ne by stat_side).

Ltac events_solve :=
  unfold sends_of, no_success, one_success, attempted;
  set_unfold; naive_solver.

Ltac spec_close :=
  repeat match goal with |- _ ∧ _ => split end;
  first [ done | state_simpl; done | events_solve
        | eexists; spec_close ].

Ltac frames_unfold :=
  unfold download, send, resolve_entity, sleep, emit, bump, record_clone,
    remove_download, classify_document.

Ltac frames_step side :=
  first
    [ apply frames_ret | apply frames_raise | apply frames_gets
    | apply frames_bind | apply frames_try | apply frames_finally
    | apply frames_modify; intros; side
    | apply frames_call; intros; side
    | apply frames_query; intros; side
    | match goal with
      | |- Reflexive _ => apply _
      | |- Transitive _ => apply _
      | |- frames _ (match ?x with _ => _ end) => destruct x
      | |- frames _ (λ _, _) => intros ?; simpl; side
      | |- ∀ _, _ => intros
      end ].

Ltac frames_go side := frames_unfold; repeat frames_step side.

Ltac grows_side :=
  first
    [ reflexivity
    | by apply grows_log
    | apply grows_bump; first [ discriminate | apply classify_attributes_not_albums ]
    | repeat split; simpl; try done; try set_solver; by exists [] ].

(** ** [process_message]: unfolding *)

Section EngineFacts.

Context (cfg : Config) (P : Platform).

Lemma process_message_body_unfold message s :
  process_message_body cfg P message s =
    if decide (id message ∈ processed_messages_ids s) then (Return None, s)
    else if album_seen (grouped_id message) (seen_album_ids s)
    then (Return None,
          set_stats (incr skipped (stats s)) (entered message s))
    else clone_message cfg P message
           (set_seen (album_add (grouped_id message) (seen_album_ids s))
              (entered message s)).
Proof.
  unfold process_message_body, mbind, M_bind, gets, modify, bump. simpl.
  destruct (decide _); [done|]. simpl.
  by destruct (album_seen _ _).
Qed.

Lemma grows_handle_media message text :
  frames grows (handle_media P message text).
Proof.
  unfold handle_media, media_body. frames_go grows_side.
Qed.

Lemma grows_dispatch message text file :
  frames grows (dispatch cfg P message text file).
Proof.
  unfold dispatch, resolve_reply, send_forward_branch, send_regular_branch,
    bookkeeping.
  frames_go grows_side.
Qed.

Lemma grows_clone_message message : frames grows (clone_message cfg P message).
Proof.
  unfold clone_message. apply frames_bind; [apply _ | frames_go grows_side |].
  intros source. apply frames_bind; [apply _ | apply grows_handle_media |].
  intros [v|[text file]]; [frames_go grows_side | apply grows_dispatch].
Qed.

Lemma grows_process_message_body message :
  frames grows (process_message_body cfg P message).
Proof.
  intros s. rewrite process_message_body_unfold.
  destruct (decide _); [reflexivity|].
  destruct (album_seen _ _).
  - repeat split; simpl; try done; [set_solver | by exists []].
  - etransitivity; [|apply grows_clone_message].
    repeat split; simpl; try done; [set_solver | | by exists []].
    unfold album_add. destruct (grouped_id message) as [g|]; [|done].
    destruct (g =? 0); set_solver.
Qed.

Lemma grows_failed s : grows s ((bump failed ;; mret (@None Z)) s).2.
Proof. by apply grows_bump. Qed.

Lemma grows_process_message fuel message :
  frames grows (process_message cfg P fuel message).
Proof.
  induction fuel as [|fuel IH]; intros s; simpl; [reflexivity|].
  pose proof (grows_process_message_body message s) as Hb.
  destruct (process_message_body cfg P message s) as [[v|e|] s1];
    simpl in *; try done.
  assert (∀ q, grows s
            ((sleep q ;; process_message cfg P fuel message) s1).2) as Hretry.
  { intros q. etransitivity; [exact Hb|].
    apply frames_bind; [apply _ | frames_go grows_side | intros; apply IH]. }
  destruct e; simpl; try apply Hretry; try done;
    (etransitivity; [exact Hb | apply grows_failed]).
Qed.

Ltac same_side := first [ reflexivity | by repeat split ].

Lemma same_guards_handle_media message text :
  frames same_guards (handle_media P message text).
Proof. unfold handle_media, media_body. frames_go same_side. Qed.

Lemma same_guards_dispatch message text file :
  frames same_guards (dispatch cfg P message text file).
Proof.
  unfold dispatch, resolve_reply, send_forward_branch, send_regular_branch,
    bookkeeping.
  frames_go same_side.
Qed.

Lemma same_guards_clone_message message :
  frames same_guards (clone_message cfg P message).
Proof.
  unfold clone_message. apply frames_bind; [apply _ | frames_go same_side |].
  intros source. apply frames_bind; [apply _ | apply same_guards_handle_media |].
  intros [v|[text file]]; [frames_go same_side | apply same_guards_dispatch].
Qed.

(** *** Media *)

Lemma handle_media_spec message text s :
  wp (handle_media P message text)
    (λ r s', ∃ evs, trace s' = (evs ++ trace s)%list
       ∧ sends_of (id message) evs
       ∧ match r with
         | Return (Returned v) =>
             ∃ d, v = Some d ∧ one_success (id message) d evs
               ∧ message_map s' = <[id message := d]> (message_map s)
               ∧ stat cloned (stats s') = S (stat cloned (stats s))
               ∧ stat failed (stats s') = stat failed (stats s)
         | Return (Fallthrough _) =>
             no_success evs ∧ message_map s' = message_map s
             ∧ stat cloned (stats s') = stat cloned (stats s)
             ∧ stat failed (stats s') = stat failed (stats s)
         | Raise e =>
             is_Exception e = false
             ∧ no_success evs ∧ message_map s' = message_map s
             ∧ stat cloned (stats s') = stat cloned (stats s)
         | OutOfFuel => False
         end) s.
Proof.
  unfold handle_media, media_body, classify_document. wp_run.
  all: exists_events.
  all: spec_close.
Qed.

(** *** Sending *)

Lemma append_empty_r (t : string) : t +:+ "" = t.
Proof.
  induction t as [|c t IH]; [done|].
  change (String c (t +:+ "") = String c t). by rewrite IH.
Qed.

Lemma append_assoc (t u v : string) : (t +:+ u) +:+ v = t +:+ (u +:+ v).
Proof.
  induction t as [|c t IH]; [done|].
  change (String c ((t +:+ u) +:+ v) = String c (t +:+ (u +:+ v))).
  by rewrite IH.
Qed.

Lemma starts_with_refl t : starts_with t t.
Proof. exists "". by rewrite append_empty_r. Qed.

Lemma starts_with_append t u : starts_with t (t +:+ u).
Proof. by exists u. Qed.

Lemma generic_plain text file reply :
  generic_request text file reply (plain_request text file reply).
Proof. repeat split; [apply starts_with_refl | by left]. Qed.

Lemma generic_plain_tag text tag file reply :
  generic_request text file reply (plain_request (text +:+ tag) file reply).
Proof. repeat split; [apply starts_with_append | by left]. Qed.

Lemma generic_plain_no_file text tag file reply :
  generic_request text file reply (plain_request (text +:+ tag) None reply).
Proof. repeat split; [apply starts_with_append | by right]. Qed.

Lemma generic_forward text file reply entity post :
  generic_request text file reply
    (forward_request text file reply entity post).
Proof. repeat split; [apply starts_with_refl | by left]. Qed.

Lemma wp_resolve_reply message Q s :
  Q (Return (resolved message s)) s → wp (resolve_reply message) Q s.
Proof.
  unfold resolve_reply, resolved. by destruct (reply_to message).
Qed.

Ltac requests_solve :=
  let Hin := fresh in
  intros ? ? ? Hin; set_unfold in Hin; destruct_or!; simplify_eq;
  eauto using generic_plain, generic_plain_tag, generic_plain_no_file,
    generic_forward.

Lemma dispatch_spec message text file s :
  wp (dispatch cfg P message text file)
    (λ r s', ∃ evs, trace s' = (evs ++ trace s)%list
       ∧ sends_of (id message) evs
       ∧ (∀ k req ans, EvSend k req ans ∈ evs →
            generic_request text file (resolved message s) req)
       ∧ (attempted (id message) evs
          ∨ ∃ e, r = Raise e ∧ is_Exception e = false)
       ∧ r ≠ OutOfFuel
       ∧ (no_success evs ∧ message_map s' = message_map s
          ∧ stat cloned (stats s') = stat cloned (stats s)
          ∧ (∀ v, r ≠ Return (Some v))
          ∨ ∃ d, one_success (id message) d evs
              ∧ message_map s' = <[id message := d]> (message_map s)
              ∧ stat cloned (stats s') = S (stat cloned (stats s))
              ∧ (truthy_file file = false →
                 r = Return (Some d)
                 ∧ stat failed (stats s') = stat failed (stats s)))) s.
Proof.
  unfold dispatch. apply wp_bind, wp_resolve_reply.
  unfold send_forward_branch, send_regular_branch, bookkeeping,
    remove_download.
  wp_run.
  all: exists_events.
  all: split; [events_solve|].
  all: split; [requests_solve|].
  all: split;
    [first [ left; events_solve
           | right; eexists; split; [reflexivity | done] ]|].
  all: split; [done|].
  all: repeat match goal with H : context [P] |- _ => clear H end.
  all: first
    [ left; spec_close
    | right;
      match goal with |- context [EvSend _ _ (inr ?d)] => exists d end;
      split; [events_solve|];
      split; [state_simpl; done|];
      split; [state_simpl; done|];
      intros Hf; simpl in Hf;
      first [ congruence | split; [done | state_simpl; done] ] ].
Qed.

Lemma sends_of_app i evs evs' :
  sends_of i evs → sends_of i evs' → sends_of i (evs ++ evs').
Proof. unfold sends_of. set_solver. Qed.

Lemma no_success_app evs evs' :
  no_success evs → no_success evs' → no_success (evs ++ evs').
Proof. unfold no_success. set_solver. Qed.

Lemma one_success_app_l i d evs evs' :
  one_success i d evs → no_success evs' → one_success i d (evs ++ evs').
Proof. unfold one_success, no_success. set_solver. Qed.

Lemma one_success_app_r i d evs evs' :
  no_success evs → one_success i d evs' → one_success i d (evs ++ evs').
Proof. unfold one_success, no_success. set_solver. Qed.

Lemma attempted_app_l i evs evs' : attempted i evs → attempted i (evs ++ evs').
Proof. unfold attempted. set_solver. Qed.

Lemma attempted_app_r i evs evs' : attempted i evs' → attempted i (evs ++ evs').
Proof. unfold attempted. set_solver. Qed.

Lemma one_success_attempted i d evs : one_success i d evs → attempted i evs.
Proof. unfold attempted. intros [[req ?] _]. eauto. Qed.

(** Lines 223-420 as a whole: every send is made for this message, at
    most one succeeds, and the mapping gains the entry of that send and
    nothing else. *)
Lemma clone_message_spec message s :
  wp (clone_message cfg P message)
    (λ r s', ∃ evs, trace s' = (evs ++ trace s)%list
       ∧ sends_of (id message) evs
       ∧ (attempted (id message) evs
          ∨ ∃ e, r = Raise e ∧ is_Exception e = false)
       ∧ r ≠ OutOfFuel
       ∧ (no_success evs ∧ message_map s' = message_map s
          ∧ stat cloned (stats s') = stat cloned (stats s)
          ∧ (∀ v, r ≠ Return (Some v))
          ∨ ∃ d, one_success (id message) d evs
              ∧ message_map s' = <[id message := d]> (message_map s)
              ∧ stat cloned (stats s') = S (stat cloned (stats s)))) s.
Proof.
  unfold clone_message. apply wp_bind, wp_gets, wp_bind.
  eapply wp_mono; [apply handle_media_spec|].
  intros r s1 (evs1 & Ht1 & Hs1 & H1).
  destruct r as [[v|[text file]]|e|]; [| | |done].
  - destruct H1 as (d & -> & Hone & Hmap & Hcl & _).
    apply wp_ret. exists evs1. repeat split; try done.
    + left. by eapply one_success_attempted.
    + right. by exists d.
  - destruct H1 as (Hno & Hmap & Hcl & _).
    eapply wp_mono; [apply dispatch_spec|].
    intros r s2 (evs2 & Ht2 & Hs2 & _ & Hat & Hfuel & H2).
    exists (evs2 ++ evs1)%list. rewrite Ht2, Ht1, app_assoc.
    repeat split; try done.
    + by apply sends_of_app.
    + destruct Hat as [Hat|Hat]; [left; by apply attempted_app_l | by right].
    + destruct H2 as [(Hno2 & Hmap2 & Hcl2 & Hr)|(d & Hone & Hmap2 & Hcl2 & _)].
      * left. repeat split; try done; [by apply no_success_app|congruence..].
      * right. exists d.
        repeat split; try congruence;
          by apply (one_success_app_l _ _ _ _ Hone Hno).
  - destruct H1 as (He & Hno & Hmap & Hcl).
    exists evs1. repeat split; try done; [right; by exists e|].
    by left.
Qed.

(** *** The duplicate guard *)

Lemma process_message_body_guard message s :
  id message ∈ processed_messages_ids s →
  process_message_body cfg P message s = (Return None, s).
Proof.
  intros. rewrite process_message_body_unfold. by destruct (decide _).
Qed.

Lemma process_message_guard fuel message s :
  id message ∈ processed_messages_ids s →
  process_message cfg P (S fuel) message s = (Return None, s).
Proof. intros. simpl. by rewrite process_message_body_guard. Qed.

Lemma processed_process_message_body message s :
  processed_messages_ids (process_message_body cfg P message s).2
  = {[id message]} ∪ processed_messages_ids s.
Proof.
  rewrite process_message_body_unfold. destruct (decide _); simpl.
  - set_solver.
  - destruct (album_seen _ _); [done|].
    by destruct (same_guards_clone_message message
      (set_seen (album_add (grouped_id message) (seen_album_ids s))
         (entered message s))) as (-> & _).
Qed.

Lemma processed_process_message fuel message s :
  processed_messages_ids (process_message cfg P (S fuel) message s).2
  = {[id message]} ∪ processed_messages_ids s.
Proof.
  simpl. pose proof (processed_process_message_body message s) as Hb.
  destruct (process_message_body cfg P message s) as [[v|e|] s1];
    simpl in *; try done.
  assert (∀ q, processed_messages_ids
            ((sleep q ;; process_message cfg P fuel message) s1).2
          = {[id message]} ∪ processed_messages_ids s) as Hretry.
  { intros q. unfold mbind, M_bind, sleep, emit, modify. simpl.
    destruct fuel as [|fuel]; [done|].
    rewrite process_message_guard; [done|]. simpl. rewrite Hb. set_solver. }
  destruct e; simpl; try apply Hretry; done.
Qed.

(** *** The handlers of lines 422-440 *)

Lemma handled_spec r s1 :
  ∃ evs, trace (handled (r, s1)).2 = (evs ++ trace s1)%list
    ∧ (∀ ev, ev ∈ evs → is_send ev = false)
    ∧ message_map (handled (r, s1)).2 = message_map s1
    ∧ ((handled (r, s1)).1 = r
       ∨ ∃ e, r = Raise e ∧ is_Exception e = true
           ∧ (handled (r, s1)).1 = Return None).
Proof.
  destruct r as [v|e|];
    [exists []; repeat split; [set_solver | by left] | |
     exists []; repeat split; [set_solver | by left]].
  destruct e; cbn [handled fst snd log trace message_map set_stats];
    first
      [ exists []; repeat split; [set_solver | first [by left | right; eauto]]
      | eexists [_]; repeat split;
        [intros ? ->%list_elem_of_singleton; done | right; eauto] ].
Qed.

Lemma process_message_handlers fuel message s :
  process_message cfg P (S (S fuel)) message s
  = handled (process_message_body cfg P message s).
Proof.
  change (process_message cfg P (S (S fuel)) message s)
    with (match process_message_body cfg P message s with
          | (Raise (FloodWaitError seconds), s') =>
              (sleep (inject_Z seconds);;
               process_message cfg P (S fuel) message) s'
          | (Raise ChatWriteForbiddenError, s')
          | (Raise ChatAdminRequiredError, s') =>
              (bump failed;; mret None) s'
          | (Raise (SlowModeWaitError seconds), s') =>
              (sleep (inject_Z seconds);;
               process_message cfg P (S fuel) message) s'
          | (Raise e, s') =>
              if is_Exception e then (bump failed;; mret None) s'
              else (Raise e, s')
          | r => r
          end).
  pose proof (processed_process_message_body message s) as Hb.
  destruct (process_message_body cfg P message s) as [[v|e|] s1];
    cbn [fst snd handled] in *; try done.
  assert (∀ q, (sleep q ;; process_message cfg P (S fuel) message) s1
               = (Return None, log (EvSleep q) s1)) as Hretry.
  { intros q. unfold mbind, M_bind, sleep, emit, modify.
    apply process_message_guard. cbn [processed_messages_ids log].
    rewrite Hb. set_solver. }
  destruct e; try apply Hretry; done.
Qed.

(** One invocation for a message that was not processed before. *)
Lemma process_message_spec fuel message s :
  id message ∉ processed_messages_ids s →
  let r := (process_message cfg P (S (S fuel)) message s).1 in
  let s' := (process_message cfg P (S (S fuel)) message s).2 in
  r ≠ OutOfFuel
  ∧ ∃ evs, trace s' = (evs ++ trace s)%list
      ∧ sends_of (id message) evs
      ∧ (no_success evs ∧ message_map s' = message_map s
         ∨ ∃ d, one_success (id message) d evs
             ∧ message_map s' = <[id message := d]> (message_map s)).
Proof.
  intros Hnew r s'. unfold r, s'. clear r s'.
  rewrite process_message_handlers, process_message_body_unfold.
  destruct (decide _); [done|].
  destruct (album_seen _ _).
  { split; [done|]. exists []. split; [done|].
    split; [unfold sends_of; set_solver|].
    left. split; [unfold no_success; set_solver | done]. }
  pose proof (clone_message_spec message
    (set_seen (album_add (grouped_id message) (seen_album_ids s))
       (entered message s))) as Hc.
  unfold wp in Hc.
  destruct (clone_message cfg P message _) as [r s1].
  destruct Hc as (evs & Ht & Hs & _ & Hfuel & Hc). cbn [fst snd] in *.
  assert (no_success evs ∧ message_map s1 = message_map s
          ∨ ∃ d, one_success (id message) d evs
              ∧ message_map s1 = <[id message := d]> (message_map s)) as Hc'.
  { destruct Hc as [(?&?&_)|(d&?&?&_)]; [by left | right; by exists d]. }
  clear Hc.
  assert (∀ q, ∃ evs', EvSleep q :: trace s1 = (evs' ++ trace s)%list
            ∧ sends_of (id message) evs'
            ∧ (no_success evs' ∧ message_map s1 = message_map s
               ∨ ∃ d, one_success (id message) d evs'
                   ∧ message_map s1 = <[id message := d]> (message_map s)))
    as Hsleep.
  { intros q. exists (EvSleep q :: evs). rewrite Ht. split; [done|].
    split; [apply (sends_of_app _ [_]); [|done]; unfold sends_of; set_solver|].
    destruct Hc' as [[??]|(d&?&?)]; [left|right; exists d]; split; try done.
    - apply (no_success_app [_]); [|done]. unfold no_success. set_solver.
    - apply (one_success_app_r _ _ [_]); [|done].
      unfold no_success. set_solver. }
  destruct r as [v|e|]; [| |done].
  - split; [done|]. by exists evs.
  - destruct e; cbn [fst snd handled]; (split; [done|]);
      try apply Hsleep; by exists evs.
Qed.

(** *** Albums *)

Lemma process_message_skip fuel message s :
  id message ∉ processed_messages_ids s →
  album_seen (grouped_id message) (seen_album_ids s) = true →
  process_message cfg P (S (S fuel)) message s
  = (Return None, set_stats (incr skipped (stats s)) (entered message s)).
Proof.
  intros Hnew Hseen.
  rewrite process_message_handlers, process_message_body_unfold.
  destruct (decide _); [done|]. by rewrite Hseen.
Qed.

Lemma process_message_first fuel message s :
  id message ∉ processed_messages_ids s →
  album_seen (grouped_id message) (seen_album_ids s) = false →
  let r := (process_message cfg P (S (S fuel)) message s).1 in
  let s' := (process_message cfg P (S (S fuel)) message s).2 in
  ∃ evs, trace s' = (evs ++ trace s)%list
    ∧ (attempted (id message) evs ∨ r = Raise KeyboardInterrupt).
Proof.
  intros Hnew Hseen r s'. unfold r, s'. clear r s'.
  rewrite process_message_handlers, process_message_body_unfold.
  destruct (decide _); [done|]. rewrite Hseen.
  pose proof (clone_message_spec message
    (set_seen (album_add (grouped_id message) (seen_album_ids s))
       (entered message s))) as Hc.
  unfold wp in Hc.
  destruct (clone_message cfg P message _) as [r s1].
  destruct Hc as (evs & Ht & _ & Hat & _). cbn [fst snd] in *.
  destruct (handled_spec r s1) as (evs' & Ht' & _ & _ & Hres).
  exists (evs' ++ evs)%list. rewrite Ht', Ht, app_assoc. split; [done|].
  destruct Hat as [Hat|(x & -> & Hx)]; [left; by apply attempted_app_r|].
  right. destruct Hres as [->|(x' & [= <-] & Hx' & _)]; [|congruence].
  by destruct x.
Qed.

Lemma seen_process_message fuel message s :
  id message ∉ processed_messages_ids s →
  seen_album_ids (process_message cfg P (S (S fuel)) message s).2
  = album_add (grouped_id message) (seen_album_ids s).
Proof.
  intros Hnew.
  rewrite process_message_handlers, process_message_body_unfold.
  destruct (decide _); [done|].
  destruct (album_seen _ _) eqn:Hseen.
  - cbn [handled snd seen_album_ids set_stats entered set_processed].
    unfold album_seen, album_add in *.
    destruct (grouped_id message) as [g|]; [|done].
    destruct (g =? 0); [done|].
    apply andb_prop in Hseen as [_ Hg%bool_decide_eq_true]. set_solver.
  - pose proof (same_guards_clone_message message
      (set_seen (album_add (grouped_id message) (seen_album_ids s))
         (entered message s))) as (_ & Hs & _).
    destruct (clone_message cfg P message _) as [r s1]. cbn [snd] in Hs.
    destruct r as [v|e|]; [done| |done].
    by destruct e.
Qed.

Lemma clone_one_unfold fuel i n message s :
  clone_one cfg P fuel i n message s =
    let s1 := if (0 <? i)%nat && negb (Qle_bool (DELAY_BETWEEN_MESSAGES cfg) 0)
              then log (EvSleep (DELAY_BETWEEN_MESSAGES cfg)) s else s in
    match process_message cfg P fuel message s1 with
    | (Return _, s2) =>
        (Return tt,
         if ((i + 1) mod 10 =? 0)%nat || (i =? n - 1)%nat
         then log (EvProgress (i + 1) n) s2 else s2)
    | (Raise e, s2) => if is_Exception e then (Return tt, s2) else (Raise e, s2)
    | (OutOfFuel, s2) => (OutOfFuel, s2)
    end.
Proof.
  unfold clone_one, try_except, mbind, M_bind, sleep, emit, modify, mret,
    M_ret.
  destruct (_ && _); cbn beta iota zeta;
    (destruct (process_message cfg P fuel message _) as [[v|e|] s2];
     cbn beta iota;
     [by destruct (_ || _) | by destruct (is_Exception e) | done]).
Qed.

(** The state in which [clone_one] invokes [process_message]. *)
Lemma clone_one_guards fuel i n message s :
  processed_messages_ids (clone_one cfg P (S (S fuel)) i n message s).2
  = {[id message]} ∪ processed_messages_ids s
  ∧ (id message ∉ processed_messages_ids s →
     seen_album_ids (clone_one cfg P (S (S fuel)) i n message s).2
     = album_add (grouped_id message) (seen_album_ids s)).
Proof.
  rewrite clone_one_unfold. cbn zeta.
  match goal with
  | |- context [process_message cfg P _ message ?x] => set (s1 := x)
  end.
  assert (processed_messages_ids s1 = processed_messages_ids s
          ∧ seen_album_ids s1 = seen_album_ids s) as [Ep Es].
  { unfold s1. by destruct (_ && _). }
  pose proof (processed_process_message (S fuel) message s1) as Hp.
  pose proof (seen_process_message fuel message s1) as Hs.
  rewrite Ep in Hp, Hs. rewrite Es in Hs.
  destruct (process_message cfg P (S (S fuel)) message s1) as [[v|e|] s2];
    cbn [snd] in *.
  - by destruct (_ || _).
  - by destruct (is_Exception e).
  - done.
Qed.

Lemma elem_of_album_add g grouped seen :
  g ≠ 0 → g ∈ album_add grouped seen ↔ grouped = Some g ∨ g ∈ seen.
Proof.
  intros Hg. unfold album_add. destruct grouped as [g'|]; [|naive_solver].
  destruct (g' =? 0) eqn:E.
  - apply Z.eqb_eq in E. naive_solver.
  - set_solver.
Qed.

Lemma clone_loop_guards fuel n messages i s g :
  g ≠ 0 →
  NoDup (id <$> messages) →
  (∀ m, m ∈ messages → id m ∉ processed_messages_ids s) →
  (clone_loop cfg P (S (S fuel)) i n messages s).1 = Return tt →
  let s' := (clone_loop cfg P (S (S fuel)) i n messages s).2 in
  processed_messages_ids s'
  = list_to_set (id <$> messages) ∪ processed_messages_ids s
  ∧ (g ∈ seen_album_ids s'
     ↔ g ∈ seen_album_ids s ∨ ∃ m, m ∈ messages ∧ grouped_id m = Some g).
Proof.
  intros Hg. revert i s.
  induction messages as [|m rest IH]; intros i s Hnd Hnew Hret s'.
  { unfold s'. cbn. split; [set_solver|]. set_solver. }
  unfold s' in *. clear s'. cbn [clone_loop] in *. unfold mbind, M_bind in *.
  rewrite fmap_cons in Hnd. apply NoDup_cons in Hnd as [Hm Hnd].
  destruct (clone_one_guards fuel i n m s) as [Hp Hs].
  specialize (Hs (Hnew m ltac:(set_solver))).
  destruct (clone_one cfg P (S (S fuel)) i n m s) as [[[]|e|] s1];
    cbn [fst snd] in *; try done.
  destruct (IH (S i) s1 Hnd) as [IHp IHs]; [|done|].
  { intros m' Hm'. rewrite Hp. intros [Heq%elem_of_singleton|Hin]%elem_of_union.
    - apply Hm. rewrite <- Heq. by apply list_elem_of_fmap_2.
    - apply (Hnew m'); [set_solver|done]. }
  split.
  - rewrite IHp, Hp. set_solver.
  - rewrite IHs, Hs, elem_of_album_add by done. set_solver.
Qed.

(** *** The mapping and the history *)

Lemma quiet_refl : Reflexive quiet.
Proof. intros s. repeat split. exists []. split; [done|]. set_solver. Qed.

#[local] Existing Instance quiet_refl.

Lemma quiet_trans : Transitive quiet.
Proof.
  intros s1 s2 s3 (?&?&evs&?&?) (?&?&evs'&E&?).
  repeat split; try congruence.
  exists (evs' ++ evs)%list. rewrite E. rewrite <- app_assoc.
  split; [congruence|]. set_solver.
Qed.

#[local] Existing Instance quiet_trans.

Lemma quiet_log ev s : is_send ev = false → quiet s (log ev s).
Proof.
  intros. repeat split. exists [ev]. split; [done|].
  intros ? ->%list_elem_of_singleton. done.
Qed.

Ltac quiet_side :=
  first [ reflexivity | by apply quiet_log
        | repeat split; exists []; split; [done | set_solver] ].

Lemma quiet_connect : frames quiet (connect cfg P).
Proof. unfold connect. frames_go quiet_side. Qed.

Lemma quiet_collect_messages items pending messages :
  frames quiet (collect_messages cfg items pending messages).
Proof.
  revert messages. induction items as [|item rest IH]; intros messages; simpl.
  - frames_go quiet_side.
  - destruct item; try apply IH.
    apply frames_bind; [apply _ | frames_go quiet_side | intros _].
    destruct (_ && _); [frames_go quiet_side | apply IH].
Qed.

Lemma quiet_get_messages : frames quiet (get_messages cfg P).
Proof.
  unfold get_messages. apply frames_bind; [apply _ | | ].
  - frames_go quiet_side.
  - intros. apply quiet_collect_messages.
Qed.

Lemma consistent_init : consistent init.
Proof.
  split.
  - intros k req ans H. by apply elem_of_nil in H.
  - intros k d. split; [done|]. intros [req H]. by apply elem_of_nil in H.
Qed.

Lemma consistent_quiet s s' : consistent s → quiet s s' → consistent s'.
Proof.
  intros [Hp Hm] (Em & Ep & evs & Et & Hq). split.
  - intros k req ans. rewrite Et, Ep, elem_of_app. intros [H|H]; [|eauto].
    by apply Hq in H.
  - intros k d. rewrite Em, Hm. split; intros [req H]; exists req.
    + rewrite Et, elem_of_app. by right.
    + rewrite Et, elem_of_app in H. destruct H as [H|H]; [|done].
      by apply Hq in H.
Qed.

Lemma consistent_process_message fuel message s :
  consistent s →
  consistent (process_message cfg P (S (S fuel)) message s).2.
Proof.
  intros [Hp Hm].
  destruct (decide (id message ∈ processed_messages_ids s)) as [Hin|Hnew].
  { by rewrite process_message_guard. }
  pose proof (processed_process_message (S fuel) message s) as Epr.
  destruct (process_message_spec fuel message s Hnew)
    as (_ & evs & Et & Hs & Hc).
  destruct (process_message cfg P (S (S fuel)) message s) as [r s'].
  cbn [fst snd] in *.
  assert (∀ req ans, EvSend (id message) req ans ∉ trace s) as Hfresh.
  { intros req ans H. by apply Hp in H. }
  split.
  - intros k req ans. rewrite Et, Epr, elem_of_app. intros [H|H].
    + apply Hs in H. set_solver.
    + apply Hp in H. set_solver.
  - intros k d. destruct Hc as [[Hno Em]|(d' & [[req' Hd'] Hu] & Em)].
    + rewrite Em, Hm. split; intros [req H]; exists req.
      * rewrite Et, elem_of_app. by right.
      * rewrite Et, elem_of_app in H. destruct H as [H|H]; [|done].
        by apply Hno in H.
    + rewrite Em, Et. destruct (decide (k = id message)) as [->|Hk].
      * rewrite lookup_insert_eq. split.
        -- intros [= <-]. exists req'. rewrite elem_of_app. by left.
        -- intros [req H]. rewrite elem_of_app in H.
           destruct H as [H|H]; [|by apply Hfresh in H].
           apply Hu in H. by subst.
      * rewrite lookup_insert_ne by done. rewrite Hm.
        split; intros [req H]; exists req.
        -- rewrite elem_of_app. by right.
        -- rewrite elem_of_app in H. destruct H as [H|H]; [|done].
           apply Hs in H. done.
Qed.

Lemma reachable_consistent s : reachable cfg P s → consistent s.
Proof.
  induction 1 as [|s _ IH|s _ IH|fuel message s _ IH|ev s Hev _ IH].
  - apply consistent_init.
  - eapply consistent_quiet; [exact IH | apply quiet_connect].
  - eapply consistent_quiet; [exact IH | apply quiet_get_messages].
  - by apply consistent_process_message.
  - eapply consistent_quiet; [exact IH | by apply quiet_log].
Qed.

Lemma reachable_clone_one fuel i n message :
  preserves (reachable cfg P) (clone_one cfg P (S (S fuel)) i n message).
Proof.
  unfold clone_one, sleep, emit.
  apply preserves_try; [|intros; apply preserves_ret].
  apply preserves_bind;
    [repeat preserves_step ltac:(by apply reachable_log) | intros _].
  apply preserves_bind;
    [intros s; apply reachable_process | intros _].
  repeat preserves_step ltac:(by apply reachable_log).
Qed.

Lemma reachable_clone_loop fuel i n messages :
  preserves (reachable cfg P) (clone_loop cfg P (S (S fuel)) i n messages).
Proof.
  revert i. induction messages as [|m rest IH]; intros i; [by intros s|].
  cbn [clone_loop].
  apply preserves_bind; [apply reachable_clone_one | intros; apply IH].
Qed.

(** *** What is raised *)

Section Raised.

Context (allowed : exn → Prop).
Context (allowed_download :
           ∀ tr m e, download_media P tr m = inl e → allowed e).
Context (allowed_send : ∀ tr req e, send_message P tr req = inl e → allowed e).
Context (allowed_entity : ∀ tr ref e, get_entity P tr ref = inl e → allowed e).
Context (allowed_remove : ∀ tr f e, os_remove P tr f = inl e → allowed e).

Ltac raised_side :=
  first
    [ by right
    | intros ? ? ?; left;
      first [ by eapply allowed_download | by eapply allowed_send
            | by eapply allowed_entity | by eapply allowed_remove ] ].

Lemma raises_process_message_body message :
  raises (or_unbound allowed) (process_message_body cfg P message).
Proof.
  unfold process_message_body, clone_message, handle_media, media_body,
    dispatch, resolve_reply, send_forward_branch, send_regular_branch,
    bookkeeping, remove_download, classify_document.
  frames_unfold.
  repeat raises_step raised_side.
Qed.

Lemma raises_process_message fuel message :
  raises (interrupts allowed) (process_message cfg P (S (S fuel)) message).
Proof.
  intros s. rewrite process_message_handlers.
  pose proof (raises_process_message_body message s) as Hb.
  destruct (process_message_body cfg P message s) as [[v|e|] s1];
    cbn [fst snd handled] in *; try done.
  destruct e; cbn [fst snd]; try done.
  destruct Hb as [?|?]; done.
Qed.



End Raised.

(** *** The driver *)

Lemma grows_connect : frames grows (connect cfg P).
Proof. unfold connect. frames_go grows_side. Qed.

Lemma grows_collect_messages items pending messages :
  frames grows (collect_messages cfg items pending messages).
Proof.
  revert messages. induction items as [|item rest IH]; intros messages; simpl.
  - frames_go grows_side.
  - destruct item; try apply IH.
    apply frames_bind; [apply _ | frames_go grows_side | intros _].
    destruct (_ && _); [frames_go grows_side | apply IH].
Qed.

Lemma grows_get_messages : frames grows (get_messages cfg P).
Proof.
  unfold get_messages. apply frames_bind; [apply _ | | ].
  - frames_go grows_side.
  - intros. apply grows_collect_messages.
Qed.

Lemma grows_clone_one fuel i n message :
  frames grows (clone_one cfg P fuel i n message).
Proof.
  unfold clone_one. apply frames_try; [apply _ | | frames_go grows_side].
  apply frames_bind; [apply _ | frames_go grows_side | intros _].
  apply frames_bind; [apply _ | apply grows_process_message | intros _].
  frames_go grows_side.
Qed.

Lemma grows_clone_loop fuel i n messages :
  frames grows (clone_loop cfg P fuel i n messages).
Proof.
  revert i. induction messages as [|m rest IH]; intros i; simpl.
  - frames_go grows_side.
  - apply frames_bind; [apply _ | apply grows_clone_one | intros; apply IH].
Qed.

Lemma grows_cleanup : frames grows (cleanup P).
Proof. unfold cleanup. frames_go grows_side. Qed.

Lemma grows_start_cloning fuel : frames grows (start_cloning cfg P fuel).
Proof.
  unfold start_cloning. apply frames_finally; [apply _ | | apply grows_cleanup].
  apply frames_bind; [apply _ | apply grows_connect | intros _].
  apply frames_bind; [apply _ | apply grows_get_messages | intros messages].
  destruct messages; [frames_go grows_side|].
  apply frames_bind; [apply _ | apply grows_clone_loop | frames_go grows_side].
Qed.



Lemma bind_assoc {A B C} (m : M A) (f : A → M B) (g : B → M C) s :
  ((m ≫= f) ≫= g) s = (m ≫= (λ a, f a ≫= g)) s.
Proof. unfold mbind, M_bind. by destruct (m s) as [[a|e|] s']. Qed.



Lemma start_cloning_returns_stats fuel s st s' :
  start_cloning cfg P fuel s = (Return st, s') → st = stats s'.
Proof.
  unfold start_cloning, try_finally.
  set (body := connect cfg P ≫= _).
  assert (wp body (λ r s1, ∀ st, r = Return st → st = stats s1) s) as Hb.
  { apply wp_bind_any; [intros _ s1 | done..].
    apply wp_bind_any; [intros messages s2 | done..].
    destruct messages.
    - apply wp_gets. by intros ? [= <-].
    - apply wp_bind_any; [intros _ s3 | done..].
      apply wp_gets. by intros ? [= <-]. }
  unfold wp in Hb. destruct (body s) as [r s1]. simpl in Hb.
  unfold cleanup, call, emit, modify, mbind, M_bind. simpl.
  destruct (client_disconnect P _); [done|].
  intros [= -> <-]. by apply Hb.
Qed.

Lemma printed_log ev s :
  printed (log ev s)
  = (printed s ++ match print_of ev with Some l => [l] | None => [] end)%list.
Proof.
  unfold printed. simpl. destruct (print_of ev); simpl; [done|].
  by rewrite app_nil_r.
Qed.

Lemma printed_print_lines lines s :
  printed (foldl (λ s line, log (EvPrint line) s) s lines)
  = (printed s ++ lines)%list.
Proof.
  revert s. induction lines as [|l lines IH]; intros s; simpl.
  - by rewrite app_nil_r.
  - rewrite IH. unfold printed. simpl. by rewrite <- app_assoc.
Qed.

Lemma stats_print_lines lines s :
  stats (foldl (λ s line, log (EvPrint line) s) s lines) = stats s.
Proof.
  revert s. induction lines as [|l lines IH]; intros s; simpl; [done|].
  by rewrite IH.
Qed.

Lemma main_unfold fuel s :
  main cfg P fuel s =
    match start_cloning cfg P fuel (log EvBanner s) with
    | (Return st, s') =>
        (Return 0, foldl (λ s line, log (EvPrint line) s) s' (report st))
    | (Raise KeyboardInterrupt, s') =>
        (Return 130,
         log (EvPrint (nl +:+ "Process interrupted by user")) s')
    | (Raise e, s') => (Return 1, log (EvPrintCritical e) s')
    | (OutOfFuel, s') => (OutOfFuel, s')
    end.
Proof.
  unfold main, try_except, print_lines, emit, modify, mbind, M_bind. simpl.
  destruct (start_cloning cfg P fuel (log EvBanner s)) as [[st|e|] s'];
    try done.
  by destruct e.
Qed.

End EngineFacts.

(** ** Idempotence of the dispatch *)

(** C6. Dispatch is idempotent per source id: once [process_message] has
    been invoked for a message, a second invocation for the same source id
    is stopped by the processed-ids guard at entry; it returns [None] and
    leaves the whole state, history of sends included, as it was. *)
Theorem dispatch_idempotent cfg P fuel fuel' (message again : Message) s :
  id again = id message →
  let s1 := (process_message cfg P (S fuel) message s).2 in
  process_message cfg P (S fuel') again s1 = (Return None, s1).
Proof.
  intros E s1. apply process_message_guard. rewrite E. unfold s1.
  rewrite processed_process_message. set_solver.
Qed.

Lemma dispatch_idempotent_witness :
  let P := mock [] [] in
  let s1 := (process_message plain_config P 2 (text_message 7 "hello") init).2 in
  stat cloned (stats s1) = 1%nat
  ∧ process_message plain_config P 2 (text_message 7 "again") s1
    = (Return None, s1).
Proof.
  split; [reflexivity|].
  apply (dispatch_idempotent plain_config (mock [] []) 1 1
           (text_message 7 "hello") (text_message 7 "again") init).
  reflexivity.
Defined.

(** ** The albums counter *)

(** C10. No operation increments [stats['albums']]: at the end of every
    run of [main], whatever was fetched and processed, the counter is 0,
    and whenever the report is printed its album line reads [Albums: 0]. *)
Theorem albums_counter_never_incremented cfg P fuel :
  let final := (main cfg P fuel init).2 in
  stat albums (stats final) = 0%nat
  ∧ match (start_cloning cfg P fuel (log EvBanner init)).1 with
    | Return st => printed final = report st ∧ "Albums: 0" ∈ report st
    | _ => ∀ st, printed final ≠ report st
    end.
Proof.
  intros final. unfold final. rewrite main_unfold.
  pose proof (grows_start_cloning cfg P fuel (log EvBanner init))
    as (_ & _ & Ha & Hp & _).
  pose proof (start_cloning_returns_stats cfg P fuel (log EvBanner init)) as Hst.
  destruct (start_cloning cfg P fuel (log EvBanner init)) as [[st|e|] s'];
    cbn [fst snd] in *.
  - specialize (Hst _ _ eq_refl). subst st.
    rewrite stats_print_lines, printed_print_lines, Hp, Ha.
    split; [done|]. split; [done|].
    unfold report. rewrite Ha. rewrite !elem_of_cons. tauto.
  - destruct e; cbn [fst snd]; (split; [exact Ha|]); intros st;
      rewrite printed_log, Hp; done.
  - split; [exact Ha|]. intros st. by rewrite Hp.
Qed.

(** ** Text transform *)




(** ** Document classification *)

Lemma classify_attributes_first_match attributes :
  classify_attributes attributes = default files (first_match attributes).
Proof.
  unfold first_match.
  induction attributes as [|[| [] | | | |] rest IH]; simpl; done.
Qed.

(** C7, as the code has it.  For a document whose download did not raise:
    when the attribute list is not empty, exactly one counter is
    incremented, that of the first attribute standing for a content kind,
    or [files] when no attribute does; when the list is empty no counter
    is incremented at all. *)
Theorem document_classification P message text attributes file s :
  media message = Some (MessageMediaDocument attributes) →
  download_media P (trace s) message = inr file →
  let s' := (handle_media P message text s).2 in
  match attributes with
  | [] => stats s' = stats s
  | _ =>
      let kind := default files (first_match attributes) in
      stats s' = incr kind (stats s)
      ∧ ∀ k, stat k (stats s')
             = if decide (kind = k) then S (stat k (stats s))
               else stat k (stats s)
  end.
Proof.
  intros Hm Hd. unfold handle_media. rewrite Hm.
  unfold try_except, media_body, download, call, mbind, M_bind.
  rewrite Hd. cbn [fst snd].
  rewrite <- classify_attributes_first_match.
  destruct attributes as [|a rest]; [done|].
  cbn [classify_document bump modify log set_stats stats fst snd mret M_ret].
  split; [done|]. intros k. apply stat_incr.
Qed.

Lemma document_classification_witness :
  let s' := (handle_media (mock [] [])
               (document_message 1
                  [DocumentAttributeFilename "a.ogg";
                   DocumentAttributeAudio true; DocumentAttributeVideo])
               "" init).2 in
  stats s' = incr voices stats_zero
  ∧ ∀ k, stat k (stats s')
         = if decide (voices = k) then S (stat k stats_zero)
           else stat k stats_zero.
Proof.
  exact (document_classification (mock [] [])
           (document_message 1
              [DocumentAttributeFilename "a.ogg";
               DocumentAttributeAudio true; DocumentAttributeVideo])
           ""
           [DocumentAttributeFilename "a.ogg";
            DocumentAttributeAudio true; DocumentAttributeVideo]
           (Some "downloads/f") init eq_refl eq_refl).
Defined.

(** C7, as stated, fails on a document with an empty attribute list: the
    message is cloned, yet [files] and every other content-kind counter
    stay at 0. *)
Lemma empty_attribute_list_not_counted :
  let s' := (process_message plain_config (mock [] []) 2
               (document_message 1 []) init).2 in
  stat files (stats s') = 0%nat ∧ stats s' = incr cloned stats_zero.
Proof. split; reflexivity. Qed.

(** ** The id mapping *)

(** C9. The mapping is append-only and extended only on a successful
    send.  In every state a run goes through, an invocation of
    [process_message] keeps every entry as it is; a new entry is for the
    message at hand and records the id a send for it returned; and an id
    without an entry is either not processed or has no successful send.
    (A [gmap] holds each key at most once.) *)
Theorem message_map_append_only cfg P fuel message s :
  reachable cfg P s →
  let s' := (process_message cfg P (S (S fuel)) message s).2 in
  (∀ k d, message_map s !! k = Some d → message_map s' !! k = Some d)
  ∧ (∀ k d, message_map s !! k = None → message_map s' !! k = Some d →
            k = id message ∧ ∃ req, EvSend k req (inr d) ∈ trace s')
  ∧ (∀ k, message_map s' !! k = None →
          k ∉ processed_messages_ids s'
          ∨ ∀ req d, EvSend k req (inr d) ∉ trace s').
Proof.
  intros Hr s'.
  pose proof (reachable_consistent cfg P s Hr) as [Hp Hm].
  pose proof (reachable_consistent cfg P s'
                (reachable_process cfg P fuel message s Hr)) as [Hp' Hm'].
  destruct (decide (id message ∈ processed_messages_ids s)) as [Hin|Hnew].
  { unfold s' in *. rewrite process_message_guard in * by done.
    cbn [snd] in *. repeat split; try congruence.
    intros k Hk. right. intros req d H.
    assert (message_map s !! k = Some d) as E by (apply Hm; eauto).
    congruence. }
  destruct (process_message_spec cfg P fuel message s Hnew)
    as (_ & evs & Et & Hs & Hc).
  fold s' in Et, Hc.
  assert (message_map s !! id message = None) as Hnone.
  { destruct (message_map s !! id message) as [d|] eqn:E; [|done].
    apply Hm in E as [req E]. by apply Hp in E. }
  repeat split.
  - intros k d E. destruct Hc as [[_ ->]|(d' & _ & ->)]; [done|].
    rewrite lookup_insert_ne; [done|]. intros <-. congruence.
  - destruct Hc as [[_ E]|(d' & _ & E)]; [congruence|].
    rewrite E in H0. destruct (decide (id message = k)) as [|Hk]; [done|].
    rewrite lookup_insert_ne in H0 by done. congruence.
  - by apply Hm'.
  - intros k Hk. right. intros req d H.
    assert (message_map s' !! k = Some d) as E by (apply Hm'; eauto).
    congruence.
Qed.

Lemma message_map_append_only_witness :
  let P := mock [] [] in
  let s := (process_message plain_config P 2 (text_message 1 "a") init).2 in
  let s' := (process_message plain_config P 2 (text_message 2 "b") s).2 in
  message_map s !! 1 = Some 1000
  ∧ (∀ k d, message_map s !! k = Some d → message_map s' !! k = Some d)
  ∧ message_map s' !! 2 = Some 1001.
Proof.
  intros P s s'.
  split; [reflexivity|]. split; [|reflexivity].
  apply (message_map_append_only plain_config P 0 (text_message 2 "b") s).
  apply (reachable_process plain_config P 0 (text_message 1 "a") init).
  apply reachable_init.
Defined.

(** ** Rate limits *)

(** C1, on the code.  A plain text message whose send raises
    [FloodWaitError(3)]: the handler of line 396 swallows the signal, the
    unassigned [new_message] of line 412 turns it into a failure, and
    nothing sleeps or retries although the next send would succeed.  A
    forwarded message whose last fallback raises a rate-limit signal: the
    handler sleeps and re-enters, the duplicate guard ends the retry, and
    the message is neither cloned nor counted as failed. *)
Theorem rate_limit_retry_is_lost :
  let run := process_message plain_config
               (mock [] [inl (FloodWaitError 3)]) 2
               (text_message 1 "hello") init in
  let run' := process_message plain_config
                (mock [] [inl (FloodWaitError 3); inl (SlowModeWaitError 3)]) 2
                (forwarded_message 1 "hello") init in
  (run.1 = Return None
   ∧ message_map run.2 = ∅
   ∧ stats run.2 = incr failed stats_zero
   ∧ trace run.2
     = [EvSend 1 (plain_request "hello" None None) (inl (FloodWaitError 3))])
  ∧ (run'.1 = Return None
     ∧ message_map run'.2 = ∅
     ∧ stats run'.2 = incr forwards stats_zero
     ∧ trace run'.2
       = [EvSleep 3;
          EvSend 1 (plain_request ("hello" +:+ forwarded_tag) None None)
            (inl (SlowModeWaitError 3));
          EvSend 1 (plain_request ("hello" +:+ forwarded_tag) None None)
            (inl (FloodWaitError 3))]).
Proof. repeat split; reflexivity. Qed.

(** ** Replies *)


(** ** Poll fallback *)









(** ** Albums *)

(** C5, as the code has it.  In a run whose messages have distinct,
    unprocessed ids, take a message of the album [g], with [g] neither
    null nor 0, after the loop has gone through the messages before it.
    If one of them carries [g], the iteration for this message sends
    nothing, leaves the mapping alone and increments exactly [skipped];
    if none does, it attempts a send for the message, unless it is
    interrupted. *)
Theorem album_collapse cfg P fuel i n (before : list Message)
    (message : Message) (g : Z) s0 :
  g ≠ 0 →
  grouped_id message = Some g →
  NoDup (id <$> (before ++ [message])%list) →
  (∀ m, m ∈ (before ++ [message])%list → id m ∉ processed_messages_ids s0) →
  g ∉ seen_album_ids s0 →
  (clone_loop cfg P (S (S fuel)) i n before s0).1 = Return tt →
  let s := (clone_loop cfg P (S (S fuel)) i n before s0).2 in
  let j := (i + List.length before)%nat in
  let r := (clone_one cfg P (S (S fuel)) j n message s).1 in
  let s' := (clone_one cfg P (S (S fuel)) j n message s).2 in
  ∃ evs, trace s' = (evs ++ trace s)%list
    ∧ ((∃ m, m ∈ before ∧ grouped_id m = Some g) →
       r = Return tt
       ∧ (∀ ev, ev ∈ evs → is_send ev = false)
       ∧ stats s' = incr skipped (stats s)
       ∧ message_map s' = message_map s)
    ∧ ((∀ m, m ∈ before → grouped_id m ≠ Some g) →
       attempted (id message) evs ∨ r = Raise KeyboardInterrupt).
Proof.
  intros Hg Hgm Hnd Hnew Hseen0 Hret s j r s'. unfold r, s'. clear r s'.
  rewrite fmap_app in Hnd. apply NoDup_app in Hnd as (Hnd & Hdisj & _).
  destruct (clone_loop_guards cfg P fuel n before i s0 g Hg Hnd) as [Hp Hs];
    [intros m Hm; apply Hnew; set_solver | done |].
  fold s in Hp, Hs.
  assert (id message ∉ processed_messages_ids s) as Hfresh.
  { rewrite Hp. intros [Hin|Hin]%elem_of_union.
    - apply elem_of_list_to_set in Hin. apply (Hdisj _ Hin). set_solver.
    - apply (Hnew message); [set_solver|done]. }
  rewrite clone_one_unfold. cbn zeta.
  match goal with
  | |- context [process_message cfg P _ message ?x] => set (s1 := x)
  end.
  assert (∃ pre, trace s1 = (pre ++ trace s)%list
            ∧ (∀ ev, ev ∈ pre → is_send ev = false)
            ∧ processed_messages_ids s1 = processed_messages_ids s
            ∧ seen_album_ids s1 = seen_album_ids s
            ∧ stats s1 = stats s ∧ message_map s1 = message_map s)
    as (pre & Ht1 & Hpre & Ep & Es & Est & Em).
  { unfold s1. destruct (_ && _).
    - eexists [_]. repeat split. by intros ? ->%list_elem_of_singleton.
    - exists []. repeat split. set_solver. }
  rewrite <- Ep in Hfresh. rewrite <- Es in Hs.
  destruct (album_seen (grouped_id message) (seen_album_ids s1)) eqn:Hal.
  - rewrite process_message_skip by done.
    set (post := if (_ || _) then _ else _).
    assert (∃ evs, trace post = (evs ++ trace s)%list
              ∧ (∀ ev, ev ∈ evs → is_send ev = false)
              ∧ stats post = incr skipped (stats s)
              ∧ message_map post = message_map s)
      as (evs & Ht & Hq & Hst & Hmap).
    { unfold post. destruct (_ || _).
      - exists (EvProgress (j + 1) n :: pre). cbn. rewrite Ht1, Est, Em.
        repeat split. intros ev [->|?]%elem_of_cons; [done|by apply Hpre].
      - exists pre. cbn. rewrite Ht1, Est, Em. by repeat split. }
    exists evs. cbn [fst snd]. split; [done|]. split; [done|].
    intros Hnone. exfalso.
    rewrite Hgm in Hal. cbn in Hal.
    apply andb_prop in Hal as [_ Hin%bool_decide_eq_true].
    apply Hs in Hin as [Hin|(m & Hm & Hmg)]; [done|]. by apply (Hnone m).
  - destruct (process_message_first cfg P fuel message s1 Hfresh Hal)
      as (evs & Ht & Hat).
    destruct (process_message cfg P (S (S fuel)) message s1) as [[v|e|] s2];
      cbn [fst snd] in *.
    + set (post := if (_ || _) then _ else _).
      assert (∃ evs', trace post = (evs' ++ trace s)%list
                ∧ attempted (id message) evs') as (evs' & Ht' & Hat').
      { destruct Hat as [Hat|?]; [|done].
        unfold post. destruct (_ || _).
        - exists (EvProgress (j + 1) n :: evs ++ pre)%list. cbn.
          rewrite Ht, Ht1, app_assoc. split; [done|].
          apply (attempted_app_r _ [_]). by apply attempted_app_l.
        - exists (evs ++ pre)%list. rewrite Ht, Ht1, app_assoc.
          split; [done|]. by apply attempted_app_l. }
      exists evs'. split; [done|]. split; [|by left].
      intros (m & Hm & Hmg). exfalso.
      assert (g ∈ seen_album_ids s1) as Hin by (apply Hs; eauto).
      rewrite Hgm in Hal. cbn in Hal.
      apply andb_false_iff in Hal as [Hal|Hal].
      * apply negb_false_iff, Z.eqb_eq in Hal. done.
      * by apply bool_decide_eq_false in Hal.
    + assert (g ∈ seen_album_ids s1 → False) as Hnot.
      { intros Hin. rewrite Hgm in Hal. cbn in Hal.
        apply andb_false_iff in Hal as [Hal|Hal].
        - apply negb_false_iff, Z.eqb_eq in Hal. done.
        - by apply bool_decide_eq_false in Hal. }
      destruct (is_Exception e) eqn:He; cbn [fst snd];
        exists (evs ++ pre)%list; rewrite Ht, Ht1, app_assoc;
        (split; [done|]); (split; [intros (m & Hm & Hmg); exfalso;
                                   apply Hnot, Hs; eauto|]); intros _.
      * destruct Hat as [Hat|[= ->]]; [left; by apply attempted_app_l|done].
      * destruct Hat as [Hat|[= ->]]; [left; by apply attempted_app_l|by right].
    + destruct Hat as [Hat|?]; [|done].
      exists (evs ++ pre)%list. rewrite Ht, Ht1, app_assoc.
      split; [done|]. split; [|intros _; left; by apply attempted_app_l].
      intros (m & Hm & Hmg). exfalso.
      assert (g ∈ seen_album_ids s1) as Hin by (apply Hs; eauto).
      rewrite Hgm in Hal. cbn in Hal.
      apply andb_false_iff in Hal as [Hal|Hal].
      * apply negb_false_iff, Z.eqb_eq in Hal. done.
      * by apply bool_decide_eq_false in Hal.
Qed.

Lemma album_collapse_witness :
  let P := mock [] [] in
  let before := [album_message 1 7; text_message 2 "x"] in
  let s := (clone_loop plain_config P 2 0 3 before init).2 in
  let r := (clone_one plain_config P 2 2 3 (album_message 3 7) s).1 in
  let s' := (clone_one plain_config P 2 2 3 (album_message 3 7) s).2 in
  ∃ evs, trace s' = (evs ++ trace s)%list
    ∧ ((∃ m, m ∈ before ∧ grouped_id m = Some 7) →
       r = Return tt
       ∧ (∀ ev, ev ∈ evs → is_send ev = false)
       ∧ stats s' = incr skipped (stats s)
       ∧ message_map s' = message_map s)
    ∧ ((∀ m, m ∈ before → grouped_id m ≠ Some 7) →
       attempted 3 evs ∨ r = Raise KeyboardInterrupt).
Proof.
  apply (album_collapse plain_config (mock [] []) 0 0 3
           [album_message 1 7; text_message 2 "x"] (album_message 3 7) 7 init).
  - done.
  - reflexivity.
  - by apply (bool_decide_unpack _).
  - intros m _. apply not_elem_of_empty.
  - apply not_elem_of_empty.
  - reflexivity.
Defined.

(** C5, as stated, fails for the album id 0, which is not null but falsy:
    three messages sharing it are all sent and none is skipped. *)
Lemma zero_album_id_not_collapsed :
  let run := clone_loop plain_config (mock [] []) 2 0 3
               [album_message 1 0; album_message 2 0; album_message 3 0]
               init in
  run.1 = Return tt
  ∧ stat skipped (stats run.2) = 0%nat
  ∧ stat cloned (stats run.2) = 3%nat
  ∧ List.length (filter (λ ev, is_send ev = true) (trace run.2)) = 3%nat.
Proof. repeat split; reflexivity. Qed.

(** ** The final report *)






(** * Further properties of the code *)

(** ** Relations every operation respects *)

Section Framed.

Context (cfg : Config) (P : Platform).
Context (R : State → State → Prop) `{!Reflexive R} `{!Transitive R}.
Context (R_log : ∀ ev s, R s (log ev s)).
Context (R_bump : ∀ k s, k ≠ total → R s (set_stats (incr k (stats s)) s)).
Context (R_total : ∀ s, R s (set_stats (incr total (stats s)) s)).
Context (R_map : ∀ m s, R s (set_message_map m s)).
Context (R_processed : ∀ p s, R s (set_processed p s)).
Context (R_seen : ∀ a s, R s (set_seen a s)).
Context (R_source : ∀ e s, R s (set_source_entity e s)).
Context (R_destination : ∀ e s, R s (set_destination_entity e s)).

Ltac framed_side :=
  first [ reflexivity | apply R_log | apply R_bump; stat_side | apply R_total
        | apply R_map | apply R_processed | apply R_seen | apply R_source
        | apply R_destination ].

Lemma framed_process_message_body message :
  frames R (process_message_body cfg P message).
Proof.
  unfold process_message_body, clone_message, handle_media, media_body,
    dispatch, resolve_reply, send_forward_branch, send_regular_branch,
    bookkeeping.
  frames_go framed_side.
Qed.

Lemma framed_process_message fuel message :
  frames R (process_message cfg P fuel message).
Proof.
  induction fuel as [|fuel IH]; intros s; simpl; [reflexivity|].
  pose proof (framed_process_message_body message s) as Hb.
  destruct (process_message_body cfg P message s) as [[v|e|] s1];
    simpl in *; try done.
  assert (∀ q, R s ((sleep q ;; process_message cfg P fuel message) s1).2)
    as Hretry.
  { intros q. etransitivity; [exact Hb|].
    apply frames_bind; [apply _ | frames_go framed_side | intros; apply IH]. }
  assert (R s ((bump failed ;; mret (@None Z)) s1).2) as Hfailed.
  { etransitivity; [exact Hb | by apply R_bump]. }
  destruct e; simpl; try apply Hretry; done.
Qed.

Lemma framed_collect_messages items pending messages :
  frames R (collect_messages cfg items pending messages).
Proof.
  revert messages. induction items as [|item rest IH]; intros messages; simpl.
  - frames_go framed_side.
  - destruct item; try apply IH.
    apply frames_bind; [apply _ | frames_go framed_side | intros _].
    destruct (_ && _); [frames_go framed_side | apply IH].
Qed.

Lemma framed_clone_loop fuel i n messages :
  frames R (clone_loop cfg P fuel i n messages).
Proof.
  revert i. induction messages as [|m rest IH]; intros i; simpl.
  - frames_go framed_side.
  - apply frames_bind; [apply _ | | intros; apply IH].
    unfold clone_one. apply frames_try; [apply _ | | frames_go framed_side].
    apply frames_bind; [apply _ | frames_go framed_side | intros _].
    apply frames_bind; [apply _ | apply framed_process_message | intros _].
    frames_go framed_side.
Qed.

Lemma framed_start_cloning fuel : frames R (start_cloning cfg P fuel).
Proof.
  unfold start_cloning, connect, get_messages, cleanup.
  apply frames_finally; [apply _ | | frames_go framed_side].
  apply frames_bind; [apply _ | frames_go framed_side | intros _].
  apply frames_bind; [apply _ | | intros messages].
  { apply frames_bind; [apply _ | frames_go framed_side | intros].
    apply framed_collect_messages. }
  destruct messages; [frames_go framed_side|].
  apply frames_bind; [apply _ | apply framed_clone_loop | ].
  frames_go framed_side.
Qed.

Lemma framed_main fuel : frames R (main cfg P fuel).
Proof.
  intros s. rewrite main_unfold.
  pose proof (framed_start_cloning fuel (log EvBanner s)) as H.
  assert (R s (log EvBanner s)) as H0 by apply R_log.
  destruct (start_cloning cfg P fuel (log EvBanner s)) as [[st|e|] s'];
    cbn [fst snd] in *.
  - etransitivity; [exact H0|]. etransitivity; [exact H|].
    generalize (report st). intros lines. clear H H0. revert s'.
    induction lines as [|l lines IH]; intros s'; simpl; [reflexivity|].
    etransitivity; [apply (R_log (EvPrint l)) | apply IH].
  - destruct e; cbn [snd];
      (etransitivity; [exact H0|]; etransitivity; [exact H|]; apply R_log).
  - by etransitivity.
Qed.

End Framed.

(** ** Counters *)

Lemma stats_le_refl : Reflexive stats_le.
Proof. by intros s k. Qed.

Lemma stats_le_trans : Transitive stats_le.
Proof. intros s1 s2 s3 H1 H2 k. etransitivity; [apply H1 | apply H2]. Qed.

#[local] Existing Instance stats_le_refl.
#[local] Existing Instance stats_le_trans.

(** X1. Counters only grow: across an invocation of [process_message] and
    across a whole run of [main], whatever the platform answers, no
    counter of [stats] ends lower than it started. *)
Theorem counters_never_decrease cfg P fuel message s k :
  (stat k (stats s)
   ≤ stat k (stats (process_message cfg P fuel message s).2))%nat
  ∧ (stat k (stats s) ≤ stat k (stats (main cfg P fuel s).2))%nat.
Proof.
  assert (∀ k0 s0, stats_le s0 (set_stats (incr k0 (stats s0)) s0)) as Hb.
  { intros k0 s0 k1. cbn [stats set_stats]. rewrite stat_incr.
    destruct (decide _); lia. }
  split.
  - apply (framed_process_message cfg P stats_le); try done;
      by intros ? ? ?.
  - apply (framed_main cfg P stats_le); try done; by intros ? ? ?.
Qed.

(** ** What escapes [process_message] and [main] *)

(** X2. [process_message] converts every [Exception] into a result: with
    a recursion budget of at least 2 it returns, or it lets through an
    error that is not an [Exception] (an interrupt); the handler of the
    driver loop has nothing to catch. *)
Theorem process_message_catches_exceptions cfg P fuel message s :
  match (process_message cfg P (S (S fuel)) message s).1 with
  | Return _ => True
  | Raise e => is_Exception e = false
  | OutOfFuel => False
  end.
Proof.
  pose proof (raises_process_message cfg P (λ _, True)
                ltac:(done) ltac:(done) ltac:(done) ltac:(done)
                fuel message s) as H.
  destruct (process_message cfg P (S (S fuel)) message s).1; try done.
  by destruct H.
Qed.



(** ** [get_messages] *)

Section Fetch.

Context (cfg : Config) (P : Platform).

(** The loop of line 185 with [acc] already collected: the invariant is
    that a positive bound has not been reached yet. *)
Lemma collect_messages_spec items pending acc s :
  (0 < MAX_MESSAGES cfg → Z.of_nat (List.length acc) < MAX_MESSAGES cfg) →
  let run := collect_messages cfg items pending acc s in
  let all := (acc ++ fetched_messages items)%list in
  match run.1 with
  | Return ms =>
      ms = bounded (MAX_MESSAGES cfg) all
      ∧ (stat total (stats run.2) + List.length acc
         = stat total (stats s) + List.length ms)%nat
  | Raise e =>
      pending = Some e
      ∧ (0 < MAX_MESSAGES cfg → Z.of_nat (List.length all) < MAX_MESSAGES cfg)
      ∧ (stat total (stats run.2)
         = stat total (stats s) + List.length (fetched_messages items))%nat
  | OutOfFuel => False
  end.
Proof.
  revert acc s. induction items as [|item rest IH]; intros acc s Hacc.
  - cbn [collect_messages fetched_messages omap list_omap]. rewrite app_nil_r.
    destruct pending as [e|]; cbn.
    + repeat split; [done | lia].
    + split; [|done]. unfold bounded.
      destruct (0 <? MAX_MESSAGES cfg) eqn:E; [|done].
      apply Z.ltb_lt in E. rewrite take_ge; [done|]. specialize (Hacc E). lia.
  - destruct item as [m| |]; [|apply (IH acc s Hacc)..].
    cbn [collect_messages]. unfold mbind, M_bind, bump, modify.
    cbn [fetched_messages omap list_omap]. fold (fetched_messages rest).
    set (s1 := set_stats (incr total (stats s)) s).
    assert (stat total (stats s1) = S (stat total (stats s))) as Et.
    { unfold s1. cbn [stats set_stats]. apply stat_incr_eq. }
    destruct ((0 <? MAX_MESSAGES cfg)
              && (MAX_MESSAGES cfg <=? Z.of_nat (List.length (acc ++ [m]))))
      eqn:E.
    + apply andb_prop in E as [E1%Z.ltb_lt E2%Z.leb_le]. cbn [fst snd].
      specialize (Hacc E1). rewrite length_app in E2. cbn in E2.
      split.
      * unfold bounded. rewrite (proj2 (Z.ltb_lt _ _) E1).
        rewrite (cons_middle m acc (fetched_messages rest)), app_assoc.
        rewrite take_app_length'; [done|]. rewrite length_app. cbn. lia.
      * unfold mret, M_ret. cbn [snd].
        rewrite Et, length_app. cbn. lia.
    + specialize (IH (acc ++ [m])%list s1).
      rewrite <- app_assoc in IH. cbn [app] in IH.
      assert (0 < MAX_MESSAGES cfg →
              Z.of_nat (List.length (acc ++ [m])) < MAX_MESSAGES cfg) as Hacc'.
      { intros H0. apply andb_false_iff in E as [E|E].
        - apply Z.ltb_ge in E. lia.
        - by apply Z.leb_gt in E. }
      specialize (IH Hacc'). cbv zeta in IH.
      destruct (collect_messages cfg rest pending (acc ++ [m]) s1)
        as [[ms|e|] s2]; cbn [fst snd] in *; [| |done].
      * destruct IH as [-> IH]. split; [done|].
        rewrite Et, length_app in IH. cbn [List.length] in IH. lia.
      * destruct IH as (-> & Hlen & IH). repeat split; [done|].
        rewrite IH, Et. cbn [List.length]. lia.
Qed.

End Fetch.

(** X5. When [get_messages] returns, it returns the fetched messages that
    are not service messages, in the order fetched, cut to the first
    [MAX_MESSAGES] when that bound is positive, and [stats['total']] has
    grown by the number of messages returned. *)
Theorem get_messages_returns cfg P s messages s' :
  get_messages cfg P s = (Return messages, s') →
  messages
  = bounded (MAX_MESSAGES cfg)
      (fetched_messages (iter_messages P (trace s) (iter_params cfg)).1)
  ∧ (stat total (stats s') = stat total (stats s) + List.length messages)%nat
  ∧ (0 < MAX_MESSAGES cfg → Z.of_nat (List.length messages) ≤ MAX_MESSAGES cfg).
Proof.
  unfold get_messages, mbind, M_bind, query. cbn [fst snd].
  set (fetched := iter_messages P (trace s) (iter_params cfg)).
  set (s0 := log _ s).
  pose proof (collect_messages_spec cfg fetched.1 fetched.2 [] s0) as H.
  cbn [app List.length] in H. specialize (H ltac:(lia)). cbv zeta in H.
  intros E. rewrite E in H. cbn [fst snd] in H. destruct H as [-> H].
  split; [done|]. split; [unfold s0 in H; cbn [stats log] in H; lia|].
  intros Hmax. unfold bounded. rewrite (proj2 (Z.ltb_lt _ _) Hmax).
  rewrite length_take. lia.
Qed.

Lemma get_messages_returns_witness :
  let P := mock [ItemMessage (text_message 1 "a"); ItemService;
                 ItemMessage (text_message 2 "b");
                 ItemMessage (text_message 3 "c")] [] in
  let run := get_messages (limited_config 2) P init in
  [text_message 1 "a"; text_message 2 "b"]
  = bounded 2
      (fetched_messages
         (iter_messages P (trace init) (iter_params (limited_config 2))).1)
  ∧ (stat total (stats run.2) = stat total (stats init) + 2)%nat
  ∧ (0 < 2 → Z.of_nat 2 ≤ 2).
Proof.
  apply (get_messages_returns (limited_config 2)
           (mock [ItemMessage (text_message 1 "a"); ItemService;
                  ItemMessage (text_message 2 "b");
                  ItemMessage (text_message 3 "c")] [])
           init [text_message 1 "a"; text_message 2 "b"]).
  reflexivity.
Defined.

(** X6. When the iterator fails, [get_messages] raises that error, no
    positive bound had been reached, and [stats['total']] keeps the count
    of the messages fetched before the failure. *)
Theorem get_messages_raises cfg P s e s' :
  get_messages cfg P s = (Raise e, s') →
  let fetched := iter_messages P (trace s) (iter_params cfg) in
  fetched.2 = Some e
  ∧ (stat total (stats s')
     = stat total (stats s) + List.length (fetched_messages fetched.1))%nat
  ∧ (0 < MAX_MESSAGES cfg →
     Z.of_nat (List.length (fetched_messages fetched.1)) < MAX_MESSAGES cfg).
Proof.
  unfold get_messages, mbind, M_bind, query. cbn [fst snd].
  set (fetched := iter_messages P (trace s) (iter_params cfg)).
  set (s0 := log _ s).
  pose proof (collect_messages_spec cfg fetched.1 fetched.2 [] s0) as H.
  cbn [app List.length] in H. specialize (H ltac:(lia)). cbv zeta in H.
  intros E. rewrite E in H. cbn [fst snd] in H. destruct H as (H1 & H2 & H3).
  done.
Qed.

Lemma get_messages_raises_witness :
  let P := mock_broken_iterator
             [ItemMessage (text_message 1 "a"); ItemService] RPCError in
  let run := get_messages plain_config P init in
  let fetched := iter_messages P (trace init) (iter_params plain_config) in
  fetched.2 = Some RPCError
  ∧ (stat total (stats run.2)
     = stat total (stats init) + List.length (fetched_messages fetched.1))%nat
  ∧ (0 < MAX_MESSAGES plain_config →
     Z.of_nat (List.length (fetched_messages fetched.1))
     < MAX_MESSAGES plain_config).
Proof.
  apply (get_messages_raises plain_config
           (mock_broken_iterator
              [ItemMessage (text_message 1 "a"); ItemService] RPCError)
           init RPCError).
  reflexivity.
Defined.

(** ** More on [process_message] *)

Section Invocation.

Context (cfg : Config) (P : Platform).

Lemma tally_app f evs evs' :
  tally f (evs ++ evs') = (tally f evs + tally f evs')%nat.
Proof. induction evs as [|ev evs IH]; cbn [app tally]; [done|]. lia. Qed.

Lemma send_sources_app evs evs' :
  send_sources (evs ++ evs') = (send_sources evs ++ send_sources evs')%list.
Proof. apply omap_app. Qed.

(** The media block: its sends are the native poll and contact sends,
    which carry no reply target and no forward; a successful one ends the
    invocation. *)
Lemma handle_media_requests message text s :
  wp (handle_media P message text)
    (λ r s', ∃ evs, trace s' = (evs ++ trace s)%list
       ∧ (∀ k req ans, EvSend k req ans ∈ evs →
            (is_Some (send_poll req) ∨ is_Some (send_contact req))
            ∧ send_forward req = None)
       ∧ stat forwards (stats s') = stat forwards (stats s)
       ∧ (tally is_send evs ≤ 1)%nat
       ∧ match r with
         | Return (Returned _) => tally is_success evs = 1%nat
         | _ => tally is_success evs = 0%nat
         end) s.
Proof.
  unfold handle_media, media_body, classify_document. wp_run.
  all: exists_events.
  all: repeat match goal with H : context [P] |- _ => clear H end.
  all: split;
    [ let Hin := fresh in
      intros ? ? ? Hin; set_unfold in Hin; destruct_or!; simplify_eq;
      cbn; eauto |].
  all: split; [state_simpl; done|].
  all: cbn [tally is_send is_success]; split; [lia | done].
Qed.

(** The sends of lines 338-409: at most three attempts, at most one
    success, and no forward attribution when forwards are anonymized. *)
Lemma dispatch_requests message text file s :
  wp (dispatch cfg P message text file)
    (λ r s', ∃ evs, trace s' = (evs ++ trace s)%list
       ∧ (tally is_send evs ≤ 3)%nat
       ∧ (tally is_success evs ≤ 1)%nat
       ∧ (ANONYMIZE_FORWARDS cfg = true →
          (∀ k req ans, EvSend k req ans ∈ evs → send_forward req = None)
          ∧ stat forwards (stats s') = stat forwards (stats s))) s.
Proof.
  unfold dispatch. apply wp_bind, wp_resolve_reply.
  unfold send_forward_branch, send_regular_branch, bookkeeping,
    remove_download.
  wp_run.
  all: exists_events.
  all: repeat match goal with H : context [P] |- _ => clear H end.
  all: cbn [tally is_send is_success]; split; [lia|]; split; [lia|].
  all: intros Han;
    repeat match goal with
           | H : negb (ANONYMIZE_FORWARDS cfg) = true |- _ =>
               rewrite Han in H; discriminate H
           end.
  all: split;
    [ let Hin := fresh in
      intros ? ? ? Hin; set_unfold in Hin; destruct_or!; simplify_eq; done
    | state_simpl; done ].
Qed.

Lemma tally_quiet evs :
  (∀ ev, ev ∈ evs → is_send ev = false) →
  tally is_send evs = 0%nat ∧ tally is_success evs = 0%nat.
Proof.
  induction evs as [|ev evs IH]; intros H; [done|].
  destruct IH as [IH1 IH2]; [intros; apply H; set_solver|].
  pose proof (H ev ltac:(set_solver)) as Hev.
  cbn [tally]. rewrite IH1, IH2, Hev.
  destruct ev as [| | | |? ? []| | | | | | | | |]; done.
Qed.

Lemma handled_forwards r s1 :
  stat forwards (stats (handled (r, s1)).2) = stat forwards (stats s1).
Proof.
  destruct r as [v|e|]; [done| |done].
  destruct e; cbn [handled snd]; by state_simpl.
Qed.

(** Everything the later statements need about the history one
    invocation adds. *)
Lemma invocation_summary fuel message s :
  let s' := (process_message cfg P (S (S fuel)) message s).2 in
  ∃ evs, trace s' = (evs ++ trace s)%list
    ∧ sends_of (id message) evs
    ∧ (tally is_send evs ≤ 4)%nat
    ∧ (tally is_success evs ≤ 1)%nat
    ∧ (∀ k req ans, EvSend k req ans ∈ evs →
         send_poll req = None → send_contact req = None →
         send_reply_to req = resolved message s)
    ∧ (ANONYMIZE_FORWARDS cfg = true →
       (∀ k req ans, EvSend k req ans ∈ evs → send_forward req = None)
       ∧ stat forwards (stats s') = stat forwards (stats s)).
Proof.
  intros s'. unfold s'. clear s'.
  assert (∀ s0 : State, trace s0 = trace s →
            stat forwards (stats s0) = stat forwards (stats s) →
            ∃ evs, trace s0 = (evs ++ trace s)%list
              ∧ sends_of (id message) evs
              ∧ (tally is_send evs ≤ 4)%nat
              ∧ (tally is_success evs ≤ 1)%nat
              ∧ (∀ k req ans, EvSend k req ans ∈ evs →
                   send_poll req = None → send_contact req = None →
                   send_reply_to req = resolved message s)
              ∧ (ANONYMIZE_FORWARDS cfg = true →
                 (∀ k req ans, EvSend k req ans ∈ evs →
                    send_forward req = None)
                 ∧ stat forwards (stats s0) = stat forwards (stats s)))
    as Hnil.
  { intros s0 Ht Hf. exists []. split; [done|].
    split; [unfold sends_of; set_solver|]. cbn [tally].
    repeat split; try lia; try done; set_solver. }
  rewrite process_message_handlers, process_message_body_unfold.
  destruct (decide _); [by apply Hnil|].
  destruct (album_seen _ _); [apply Hnil; [done | by state_simpl]|].
  set (s0 := set_seen _ _).
  assert (trace s0 = trace s ∧ message_map s0 = message_map s
          ∧ stats s0 = stats s) as (Et0 & Em0 & Es0) by done.
  unfold clone_message, mbind, M_bind, gets. cbn [fst snd].
  pose proof (handle_media_spec P message
                (transform_text cfg (source_entity s0) message) s0) as H1.
  pose proof (handle_media_requests message
                (transform_text cfg (source_entity s0) message) s0) as H2.
  unfold wp in H1, H2.
  destruct (handle_media P message _ s0) as [r1 s1]. cbn [fst snd] in *.
  destruct H1 as (evs1 & Ht1 & Hs1 & H1).
  destruct H2 as (evs1' & Ht1' & Hreq1 & Hf1 & Hn1 & Hk1).
  assert (evs1' = evs1) as ->.
  { rewrite Ht1 in Ht1'. by apply app_inv_tail in Ht1'. }
  rewrite Et0 in Ht1. rewrite Es0 in Hf1.
  assert (∀ k req ans, EvSend k req ans ∈ evs1 →
            send_poll req = None → send_contact req = None →
            send_reply_to req = resolved message s) as Hrep1.
  { intros k req ans Hin Hp Hc.
    destruct (Hreq1 k req ans Hin) as [[[? Hx]|[? Hx]] _]; congruence. }
  assert (∀ r s2 evs2,
            trace s2 = (evs2 ++ trace s)%list →
            sends_of (id message) evs2 →
            (tally is_send evs2 ≤ 4)%nat →
            (tally is_success evs2 ≤ 1)%nat →
            (∀ k req ans, EvSend k req ans ∈ evs2 →
               send_poll req = None → send_contact req = None →
               send_reply_to req = resolved message s) →
            (ANONYMIZE_FORWARDS cfg = true →
             (∀ k req ans, EvSend k req ans ∈ evs2 →
                send_forward req = None)
             ∧ stat forwards (stats s2) = stat forwards (stats s)) →
            ∃ evs, trace (handled (r, s2)).2 = (evs ++ trace s)%list
              ∧ sends_of (id message) evs
              ∧ (tally is_send evs ≤ 4)%nat
              ∧ (tally is_success evs ≤ 1)%nat
              ∧ (∀ k req ans, EvSend k req ans ∈ evs →
                   send_poll req = None → send_contact req = None →
                   send_reply_to req = resolved message s)
              ∧ (ANONYMIZE_FORWARDS cfg = true →
                 (∀ k req ans, EvSend k req ans ∈ evs →
                    send_forward req = None)
                 ∧ stat forwards (stats (handled (r, s2)).2)
                   = stat forwards (stats s))) as Hhandled.
  { intros r s2 evs2 Ht Hs Hn Hk Hrep Han.
    destruct (handled_spec r s2) as (evs' & Ht' & Hq & _ & _).
    destruct (tally_quiet evs' Hq) as [Hq1 Hq2].
    assert (∀ k req ans, EvSend k req ans ∈ (evs' ++ evs2)%list →
              EvSend k req ans ∈ evs2) as Hsub.
    { intros k req ans [Hin|Hin]%elem_of_app; [|done]. by apply Hq in Hin. }
    exists (evs' ++ evs2)%list. rewrite Ht', Ht, app_assoc, !tally_app.
    split; [done|]. split; [intros k req ans Hin; eapply Hs; eauto|].
    split; [lia|]. split; [lia|]. split; [by eauto|].
    intros Ha. destruct (Han Ha) as [Hfw Hst].
    split; [by eauto|]. by rewrite handled_forwards. }
  destruct r1 as [[v|[text file]]|e|]; [| | |done].
  - apply (Hhandled _ _ evs1); try done; [lia..|].
    intros _. split; [|done].
    intros k req ans Hin. by destruct (Hreq1 k req ans Hin).
  - destruct H1 as (Hno & Hmap & _).
    pose proof (dispatch_spec cfg P message text file s1) as H3.
    pose proof (dispatch_requests message text file s1) as H4.
    unfold wp in H3, H4.
    destruct (dispatch cfg P message text file s1) as [r2 s2].
    cbn [fst snd] in *.
    destruct H3 as (evs2 & Ht2 & Hs2 & Hreq2 & _).
    destruct H4 as (evs2' & Ht2' & Hn2 & Hk2 & Han2).
    assert (evs2' = evs2) as ->.
    { rewrite Ht2 in Ht2'. by apply app_inv_tail in Ht2'. }
    assert (resolved message s1 = resolved message s) as Eres.
    { unfold resolved. by rewrite Hmap, Em0. }
    apply (Hhandled _ _ (evs2 ++ evs1)%list).
    + by rewrite Ht2, Ht1, app_assoc.
    + by apply sends_of_app.
    + rewrite tally_app. lia.
    + rewrite tally_app. lia.
    + intros k req ans [Hin|Hin]%elem_of_app; [|by eauto].
      intros _ _. destruct (Hreq2 k req ans Hin) as (_ & -> & _). done.
    + intros Ha. destruct (Han2 Ha) as [Hfw Hst]. split; [|congruence].
      intros k req ans [Hin|Hin]%elem_of_app; [by eauto|].
      by destruct (Hreq1 k req ans Hin).
  - apply (Hhandled _ _ evs1); try done; [lia..|].
    intros _. split; [|done].
    intros k req ans Hin. by destruct (Hreq1 k req ans Hin).
Qed.

Lemma process_message_clones fuel message s :
  id message ∉ processed_messages_ids s →
  let s' := (process_message cfg P (S (S fuel)) message s).2 in
  keeps_clones s s'
  ∨ ∃ d, message_map s' = <[id message := d]> (message_map s)
      ∧ stat cloned (stats s') = S (stat cloned (stats s)).
Proof.
  intros Hnew s'. unfold s'. clear s'.
  rewrite process_message_handlers, process_message_body_unfold.
  destruct (decide _); [done|].
  destruct (album_seen _ _); [left; split; [done | by state_simpl]|].
  pose proof (clone_message_spec cfg P message
    (set_seen (album_add (grouped_id message) (seen_album_ids s))
       (entered message s))) as Hc.
  unfold wp in Hc.
  destruct (clone_message cfg P message _) as [r s1].
  destruct Hc as (evs & _ & _ & _ & _ & Hc). cbn [fst snd] in *.
  assert (message_map (handled (r, s1)).2 = message_map s1
          ∧ stat cloned (stats (handled (r, s1)).2) = stat cloned (stats s1))
    as [Em Ec].
  { destruct r as [v|e|]; [done| |done].
    destruct e; cbn [handled snd]; split; by state_simpl. }
  destruct Hc as [(_ & Hm & Hcl & _)|(d & _ & Hm & Hcl)].
  - left. split; [by rewrite Em, Hm | by rewrite Ec, Hcl].
  - right. exists d. split; [by rewrite Em, Hm | by rewrite Ec, Hcl].
Qed.

Lemma keeps_clones_refl : Reflexive keeps_clones.
Proof. by intros s. Qed.

Lemma keeps_clones_trans : Transitive keeps_clones.
Proof. intros s1 s2 s3 [??] [??]. split; congruence. Qed.

#[local] Existing Instance keeps_clones_refl.
#[local] Existing Instance keeps_clones_trans.

Ltac clones_side :=
  first [ reflexivity | split; [done | by state_simpl] ].

Lemma keeps_clones_connect : frames keeps_clones (connect cfg P).
Proof. unfold connect. frames_go clones_side. Qed.

Lemma keeps_clones_collect_messages items pending messages :
  frames keeps_clones (collect_messages cfg items pending messages).
Proof.
  revert messages. induction items as [|item rest IH]; intros messages; simpl.
  - frames_go clones_side.
  - destruct item; try apply IH.
    apply frames_bind; [apply _ | frames_go clones_side | intros _].
    destruct (_ && _); [frames_go clones_side | apply IH].
Qed.

Lemma keeps_clones_get_messages : frames keeps_clones (get_messages cfg P).
Proof.
  unfold get_messages. apply frames_bind; [apply _ | | ].
  - frames_go clones_side.
  - intros. apply keeps_clones_collect_messages.
Qed.

(** The history one iteration of the driver loop adds. *)
Lemma clone_one_sends fuel i n message s :
  ∃ evs, trace (clone_one cfg P (S (S fuel)) i n message s).2
         = (evs ++ trace s)%list
    ∧ sends_of (id message) evs.
Proof.
  rewrite clone_one_unfold. cbn zeta.
  match goal with
  | |- context [process_message cfg P _ message ?x] => set (s1 := x)
  end.
  assert (∃ pre, trace s1 = (pre ++ trace s)%list
            ∧ sends_of (id message) pre) as (pre & Ht1 & Hpre).
  { unfold s1. destruct (_ && _).
    - eexists [_]. split; [done|]. unfold sends_of. set_solver.
    - exists []. split; [done|]. unfold sends_of. set_solver. }
  destruct (invocation_summary fuel message s1) as (evs & Ht & Hs & _).
  destruct (process_message cfg P (S (S fuel)) message s1) as [[v|e|] s2];
    cbn [fst snd] in *.
  - destruct (_ || _); cbn [trace log].
    + exists (EvProgress (i + 1) n :: evs ++ pre)%list.
      rewrite Ht, Ht1, app_assoc. split; [done|].
      apply (sends_of_app _ [_]); [unfold sends_of; set_solver|].
      by apply sends_of_app.
    + exists (evs ++ pre)%list. rewrite Ht, Ht1, app_assoc.
      split; [done | by apply sends_of_app].
  - exists (evs ++ pre)%list.
    destruct (is_Exception e); cbn [snd]; rewrite Ht, Ht1, app_assoc;
      (split; [done | by apply sends_of_app]).
  - exists (evs ++ pre)%list. rewrite Ht, Ht1, app_assoc.
    split; [done | by apply sends_of_app].
Qed.

End Invocation.

(** X7. No retry loop: one invocation of [process_message] adds to the
    history at most four send attempts, all for the message at hand, and
    at most one of them succeeds. *)
Theorem send_attempts_bounded cfg P fuel message s :
  ∃ evs,
    trace (process_message cfg P (S (S fuel)) message s).2
    = (evs ++ trace s)%list
    ∧ sends_of (id message) evs
    ∧ (tally is_send evs ≤ 4)%nat
    ∧ (tally is_success evs ≤ 1)%nat.
Proof.
  destruct (invocation_summary cfg P fuel message s)
    as (evs & ? & ? & ? & ? & _).
  by exists evs.
Qed.

(** X8. Every send of an invocation other than a native poll or contact
    send carries the reply target the mapping gives at entry: the mapped
    destination id when the target was cloned, none otherwise. *)
Theorem generic_sends_carry_reply cfg P fuel message s :
  ∃ evs,
    trace (process_message cfg P (S (S fuel)) message s).2
    = (evs ++ trace s)%list
    ∧ ∀ k req ans, EvSend k req ans ∈ evs →
        send_poll req = None → send_contact req = None →
        send_reply_to req
        = match reply_to message with
          | Some header => message_map s !! reply_to_msg_id header
          | None => None
          end.
Proof.
  destruct (invocation_summary cfg P fuel message s)
    as (evs & ? & _ & _ & _ & ? & _).
  by exists evs.
Qed.

(** X9. With [ANONYMIZE_FORWARDS] on, no send of an invocation carries a
    forward attribution and [stats['forwards']] is not incremented. *)
Theorem anonymized_forwards cfg P fuel message s :
  ANONYMIZE_FORWARDS cfg = true →
  let s' := (process_message cfg P (S (S fuel)) message s).2 in
  stat forwards (stats s') = stat forwards (stats s)
  ∧ ∃ evs, trace s' = (evs ++ trace s)%list
      ∧ ∀ k req ans, EvSend k req ans ∈ evs → send_forward req = None.
Proof.
  intros Han s'.
  destruct (invocation_summary cfg P fuel message s)
    as (evs & ? & _ & _ & _ & _ & H).
  destruct (H Han). split; [done|]. by exists evs.
Qed.

Lemma anonymized_forwards_witness :
  let s' := (process_message anonymous_config (mock [] []) 2
               (forwarded_from 1 77 "hello") init).2 in
  stat forwards (stats s') = stat forwards (stats init)
  ∧ ∃ evs, trace s' = (evs ++ trace init)%list
      ∧ ∀ k req ans, EvSend k req ans ∈ evs → send_forward req = None.
Proof.
  apply (anonymized_forwards anonymous_config (mock [] []) 0
           (forwarded_from 1 77 "hello") init).
  reflexivity.
Defined.

(** X10. In every state of a run, [stats['cloned']] is the number of
    entries of the id mapping. *)
Theorem cloned_counts_the_mapping cfg P s :
  reachable cfg P s → stat cloned (stats s) = size (message_map s).
Proof.
  induction 1 as [|s Hr IH|s Hr IH|fuel message s Hr IH|ev s Hev Hr IH].
  - done.
  - destruct (keeps_clones_connect cfg P s) as [-> ->]. done.
  - destruct (keeps_clones_get_messages cfg P s) as [-> ->]. done.
  - destruct (decide (id message ∈ processed_messages_ids s)) as [Hin|Hnew].
    { by rewrite process_message_guard. }
    pose proof (reachable_consistent cfg P s Hr) as [Hp Hm].
    assert (message_map s !! id message = None) as Hnone.
    { destruct (message_map s !! id message) as [d|] eqn:E; [|done].
      apply Hm in E as [req E]. by apply Hp in E. }
    destruct (process_message_clones cfg P fuel message s Hnew)
      as [[-> ->]|(d & -> & ->)]; [done|].
    rewrite map_size_insert_None by done. by rewrite IH.
  - done.
Qed.

Lemma cloned_counts_the_mapping_witness :
  let s := (clone_loop plain_config (mock [] []) 2 0 3
              [text_message 1 "a"; album_message 2 7; album_message 3 7]
              init).2 in
  stat cloned (stats s) = size (message_map s).
Proof.
  apply (cloned_counts_the_mapping plain_config (mock [] [])).
  apply (reachable_clone_loop plain_config (mock [] []) 0 0 3).
  apply reachable_init.
Defined.

Lemma no_sends_for_the_rest (rest : list Message) :
  mjoin (zip_with (λ m c, replicate c (id m)) rest
           (replicate (List.length rest) 0%nat)) = [].
Proof. induction rest as [|m rest IH]; [done|]. cbn. exact IH. Qed.

(** X11. Sends follow the order of the message list: the source ids of
    the sends the driver loop adds to the history, oldest first, are the
    ids of the messages in list order, each repeated as often as a send
    was attempted for it. *)
Theorem sends_follow_message_order cfg P fuel i n messages s :
  ∃ evs counts,
    trace (clone_loop cfg P (S (S fuel)) i n messages s).2
    = (evs ++ trace s)%list
    ∧ List.length counts = List.length messages
    ∧ rev (send_sources evs)
      = mjoin (zip_with (λ m c, replicate c (id m)) messages counts).
Proof.
  revert i s. induction messages as [|m rest IH]; intros i s.
  { by exists [], []. }
  cbn [clone_loop]. unfold mbind, M_bind.
  destruct (clone_one_sends cfg P fuel i n m s) as (evs1 & Ht1 & Hs1).
  assert (rev (send_sources evs1)
          = replicate (List.length (send_sources evs1)) (id m)) as Hrep.
  { symmetry. apply replicate_as_Forall. split; [apply length_rev|].
    apply Forall_forall. intros k Hk.
    apply list_elem_of_In, in_rev, list_elem_of_In in Hk.
    unfold send_sources in Hk. apply list_elem_of_omap in Hk as (ev & Hev & E).
    destruct ev; try done. injection E as ->. symmetry. by eapply Hs1. }
  destruct (clone_one cfg P (S (S fuel)) i n m s) as [[[]|e|] s1];
    cbn [fst snd] in *.
  - destruct (IH (S i) s1) as (evs2 & counts & Ht2 & Hlen & Hord).
    exists (evs2 ++ evs1)%list, (List.length (send_sources evs1) :: counts).
    rewrite Ht2, Ht1, app_assoc. split; [done|]. split; [cbn; lia|].
    rewrite send_sources_app, rev_app_distr, Hrep, Hord. done.
  - exists evs1, (List.length (send_sources evs1)
                 :: replicate (List.length rest) 0%nat).
    split; [done|]. split; [cbn; by rewrite length_replicate|].
    cbn [zip_with mjoin list_join]. rewrite Hrep.
    rewrite <- (app_nil_r (replicate _ _)) at 1. f_equal. symmetry.
    apply no_sends_for_the_rest.
  - exists evs1, (List.length (send_sources evs1)
                 :: replicate (List.length rest) 0%nat).
    split; [done|]. split; [cbn; by rewrite length_replicate|].
    cbn [zip_with mjoin list_join]. rewrite Hrep.
    rewrite <- (app_nil_r (replicate _ _)) at 1. f_equal. symmetry.
    apply no_sends_for_the_rest.
Qed.

(** ** Where the sends of a run come from *)

Section Run.

Context (cfg : Config) (P : Platform).

Lemma get_messages_fetched s :
  match (get_messages cfg P s).1 with
  | Return messages =>
      ∀ m, m ∈ messages →
           ItemMessage m ∈ (iter_messages P (trace s) (iter_params cfg)).1
  | _ => True
  end.
Proof.
  unfold get_messages, mbind, M_bind, query. cbn [fst snd].
  set (fetched := iter_messages P (trace s) (iter_params cfg)).
  set (s0 := log _ s).
  pose proof (collect_messages_spec cfg fetched.1 fetched.2 [] s0) as H.
  cbn [app List.length] in H. specialize (H ltac:(lia)). cbv zeta in H.
  destruct (collect_messages cfg fetched.1 fetched.2 [] s0) as [[ms|e|] s1];
    cbn [fst snd] in *; [|done..].
  destruct H as [-> _]. intros m Hm.
  assert (m ∈ fetched_messages fetched.1) as Hin.
  { unfold bounded in Hm. destruct (0 <? MAX_MESSAGES cfg); [|done].
    by apply subseteq_take in Hm. }
  unfold fetched_messages in Hin.
  apply list_elem_of_omap in Hin as (item & Hitem & E).
  destruct item; [|done..]. by injection E as ->.
Qed.

Lemma clone_loop_sends fuel i n messages s :
  ∃ evs,
    trace (clone_loop cfg P (S (S fuel)) i n messages s).2
    = (evs ++ trace s)%list
    ∧ ∀ k req ans, EvSend k req ans ∈ evs → ∃ m, m ∈ messages ∧ id m = k.
Proof.
  revert i s. induction messages as [|m rest IH]; intros i s.
  { exists []. split; [done|]. set_solver. }
  cbn [clone_loop]. unfold mbind, M_bind.
  destruct (clone_one_sends cfg P fuel i n m s) as (evs1 & Ht1 & Hs1).
  assert (∀ k req ans, EvSend k req ans ∈ evs1 →
            ∃ m', m' ∈ m :: rest ∧ id m' = k) as H1.
  { intros k req ans Hin. exists m. split; [set_solver|].
    symmetry. by eapply Hs1. }
  destruct (clone_one cfg P (S (S fuel)) i n m s) as [[[]|e|] s1];
    cbn [fst snd] in *; [|by exists evs1..].
  destruct (IH (S i) s1) as (evs2 & Ht2 & Hs2).
  exists (evs2 ++ evs1)%list. rewrite Ht2, Ht1, app_assoc. split; [done|].
  intros k req ans [Hin|Hin]%elem_of_app; [|by eauto].
  destruct (Hs2 _ _ _ Hin) as (m' & ? & ?). exists m'. set_solver.
Qed.

End Run.

(** X12. A run sends only on behalf of fetched messages: every send that
    [start_cloning] adds to the history comes after [connect] returned,
    and its source id is the id of a message the iterator yielded.  When
    [connect] fails or nothing is fetched, nothing is sent. *)
Theorem sends_only_for_fetched_messages cfg P fuel s :
  ∃ evs,
    trace (start_cloning cfg P (S (S fuel)) s).2 = (evs ++ trace s)%list
    ∧ ∀ k req ans, EvSend k req ans ∈ evs →
        (connect cfg P s).1 = Return tt
        ∧ ∃ m, ItemMessage m
                 ∈ (iter_messages P (trace (connect cfg P s).2)
                      (iter_params cfg)).1
             ∧ id m = k.
Proof.
  unfold start_cloning, try_finally.
  match goal with
  | |- context [let '(r, s') := ?b s in _] => set (body := b)
  end.
  assert (∃ evs, trace (body s).2 = (evs ++ trace s)%list
            ∧ ∀ k req ans, EvSend k req ans ∈ evs →
                (connect cfg P s).1 = Return tt
                ∧ ∃ m, ItemMessage m
                         ∈ (iter_messages P (trace (connect cfg P s).2)
                              (iter_params cfg)).1
                     ∧ id m = k) as (evs & Ht & Hs).
  { unfold body, mbind, M_bind.
    destruct (quiet_connect cfg P s) as (_ & _ & evs0 & Ht0 & Hq0).
    assert (∀ k req ans, EvSend k req ans ∉ evs0) as Hno0.
    { intros k req ans Hin. by apply Hq0 in Hin. }
    destruct (connect cfg P s) as [[[]|e|] s1]; cbn [fst snd] in *;
      [|exists evs0; split; [done|]; intros ? ? ? Hin; by apply Hno0 in Hin..].
    destruct (quiet_get_messages cfg P s1) as (_ & _ & evs1 & Ht1 & Hq1).
    assert (∀ k req ans, EvSend k req ans ∉ (evs1 ++ evs0)%list) as Hno1.
    { intros k req ans [Hin|Hin]%elem_of_app;
        [by apply Hq1 in Hin | by apply Hno0 in Hin]. }
    pose proof (get_messages_fetched cfg P s1) as Hfetched.
    destruct (get_messages cfg P s1) as [[messages|e|] s2]; cbn [fst snd] in *;
      [|exists (evs1 ++ evs0)%list; rewrite Ht1, Ht0, app_assoc;
        split; [done|]; intros ? ? ? Hin; by apply Hno1 in Hin..].
    destruct messages as [|m rest].
    { exists (evs1 ++ evs0)%list. cbn [gets snd]. rewrite Ht1, Ht0, app_assoc.
      split; [done|]. intros ? ? ? Hin. by apply Hno1 in Hin. }
    destruct (clone_loop_sends cfg P fuel 0 (List.length (m :: rest))
                (m :: rest) s2) as (evs2 & Ht2 & Hs2).
    exists (evs2 ++ evs1 ++ evs0)%list.
    split.
    { destruct (clone_loop cfg P (S (S fuel)) 0 _ (m :: rest) s2)
        as [[[]|e|] s3]; cbn [gets fst snd] in *;
        by rewrite Ht2, Ht1, Ht0, !app_assoc. }
    intros k req ans [Hin|Hin]%elem_of_app; [|by apply Hno1 in Hin].
    split; [done|]. destruct (Hs2 _ _ _ Hin) as (m' & Hm' & <-).
    exists m'. split; [by apply Hfetched | done]. }
  destruct (body s) as [r s1]. cbn [snd] in Ht.
  unfold cleanup, call, emit, modify, mbind, M_bind. cbn [fst snd trace log].
  exists (match client_disconnect P (EvCleanDownloads :: trace s1) with
          | inl e => EvDisconnect (inl e)
          | inr u => EvDisconnect (inr u)
          end :: EvCleanDownloads :: evs)%list.
  split.
  - destruct (client_disconnect P (EvCleanDownloads :: trace s1)) as [e|[]];
      cbn [fst snd trace log]; by rewrite Ht.
  - intros k req ans Hin.
    apply elem_of_cons in Hin as [Hin|Hin].
    { by destruct (client_disconnect P _). }
    apply elem_of_cons in Hin as [Hin|Hin]; [done|]. by eapply Hs.
Qed.

(** ** Waits and outcome counters *)

Section Outcome.

Context (cfg : Config) (P : Platform).

Lemma no_wait_refl : Reflexive no_wait.
Proof. intros s. repeat split. by exists []. Qed.

Lemma no_wait_trans : Transitive no_wait.
Proof.
  intros s1 s2 s3 (?&?&evs&?&?) (?&?&evs'&E&?).
  repeat split; try congruence.
  exists (evs' ++ evs)%list. rewrite E, <- app_assoc, tally_app.
  split; [congruence | lia].
Qed.

#[local] Existing Instance no_wait_refl.
#[local] Existing Instance no_wait_trans.

Ltac no_wait_side :=
  first
    [ reflexivity
    | split; [by state_simpl|]; split; [by state_simpl|];
      first [ by exists [] | by eexists [_] ] ].

Lemma no_wait_clone_message message :
  frames no_wait (clone_message cfg P message).
Proof.
  unfold clone_message, handle_media, media_body, dispatch, resolve_reply,
    send_forward_branch, send_regular_branch, bookkeeping.
  frames_go no_wait_side.
Qed.

Lemma handle_media_failed message text s :
  wp (handle_media P message text)
    (λ _ s', stat failed (stats s') = stat failed (stats s)) s.
Proof.
  unfold handle_media, media_body, classify_document. wp_run.
  all: by state_simpl.
Qed.

(** Lines 330-420: an exception leaves [dispatch] when [os.remove] raised
    it, or before anything was recorded; a rate-limit signal leaves it
    only from the last send of the forward branch. *)
Lemma dispatch_outcome message text file s :
  wp (dispatch cfg P message text file)
    (λ r s',
       (stat cloned (stats s') + stat failed (stats s')
        ≤ 1 + (stat cloned (stats s) + stat failed (stats s)))%nat
       ∧ match r with
         | Return _ => True
         | Raise e =>
             (∃ tr f, os_remove P tr f = inl e)
             ∨ (stat cloned (stats s') = stat cloned (stats s)
                ∧ stat failed (stats s') = stat failed (stats s)
                ∧ (is_rate_limit e = true →
                   is_Some (fwd_from message)
                   ∧ ANONYMIZE_FORWARDS cfg = false))
         | OutOfFuel => False
         end) s.
Proof.
  unfold dispatch. apply wp_bind, wp_resolve_reply.
  unfold send_forward_branch, send_regular_branch, bookkeeping,
    remove_download.
  wp_run.
  all: split; [state_simpl; lia|].
  all: try done.
  all: first
    [ left; do 2 eexists; eassumption
    | right; split; [by state_simpl|]; split; [by state_simpl|];
      intros Hrl;
      first
        [ discriminate Hrl
        | match goal with
          | H : is_Exception ?e = false |- _ => by destruct e
          end
        | split; [by eexists | by apply negb_true_iff] ] ].
Qed.

Lemma clone_message_outcome message s :
  wp (clone_message cfg P message)
    (λ r s',
       no_wait s s'
       ∧ (stat cloned (stats s') + stat failed (stats s')
          ≤ 1 + (stat cloned (stats s) + stat failed (stats s)))%nat
       ∧ match r with
         | Return _ => True
         | Raise e =>
             is_Exception e = true →
             (∃ tr f, os_remove P tr f = inl e)
             ∨ (stat cloned (stats s') = stat cloned (stats s)
                ∧ stat failed (stats s') = stat failed (stats s)
                ∧ (is_rate_limit e = true →
                   is_Some (fwd_from message)
                   ∧ ANONYMIZE_FORWARDS cfg = false))
         | OutOfFuel => False
         end) s.
Proof.
  unfold wp. split; [apply no_wait_clone_message|].
  unfold clone_message, mbind, M_bind, gets. cbn [fst snd].
  pose proof (handle_media_spec P message
                (transform_text cfg (source_entity s) message) s) as H1.
  pose proof (handle_media_failed message
                (transform_text cfg (source_entity s) message) s) as H2.
  unfold wp in H1, H2.
  destruct (handle_media P message _ s) as [r1 s1]. cbn [fst snd] in *.
  destruct H1 as (evs1 & _ & _ & H1).
  destruct r1 as [[v|[text file]]|e|]; [| | |done].
  - destruct H1 as (d & _ & _ & _ & Hc & Hf). unfold mret, M_ret.
    cbn [fst snd]. split; [lia | done].
  - destruct H1 as (_ & _ & Hc & Hf).
    pose proof (dispatch_outcome message text file s1) as H3.
    unfold wp in H3.
    destruct (dispatch cfg P message text file s1) as [[v|e|] s2];
      cbn [fst snd] in *; destruct H3 as [Hle H3].
    + split; [lia | done].
    + split; [lia|]. intros _.
      destruct H3 as [H3|(? & ? & ?)]; [by left | right].
      split; [congruence|]. split; [congruence | done].
    + done.
  - destruct H1 as (He & _ & _ & Hc). cbn [fst snd].
    split; [lia|]. intros; congruence.
Qed.

(** One invocation: the waits it adds and what it adds to the outcome
    counters. *)
Lemma invocation_outcome fuel message s :
  let run := process_message cfg P (S (S fuel)) message s in
  ∃ evs, trace run.2 = (evs ++ trace s)%list
    ∧ (tally is_sleep evs ≤ 1)%nat
    ∧ ((∀ tr f e, os_remove P tr f = inl e → is_rate_limit e = false) →
       tally is_sleep evs = 1%nat →
       is_Some (fwd_from message) ∧ ANONYMIZE_FORWARDS cfg = false
       ∧ run.1 = Return None
       ∧ no_success evs
       ∧ message_map run.2 = message_map s
       ∧ stat cloned (stats run.2) = stat cloned (stats s)
       ∧ stat failed (stats run.2) = stat failed (stats s))
    ∧ ((∀ tr f e, os_remove P tr f = inl e → is_Exception e = false) →
       (outcomes run.2 ≤ 1 + outcomes s)%nat).
Proof.
  intros run. unfold run. clear run.
  rewrite process_message_handlers, process_message_body_unfold.
  destruct (decide _).
  { exists []. cbn [handled fst snd tally]. split; [done|]. split; [lia|].
    split; [done|]. intros _. lia. }
  destruct (album_seen _ _).
  { exists []. cbn [handled fst snd tally]. split; [done|]. split; [lia|].
    split; [done|]. intros _. unfold outcomes. state_simpl. lia. }
  set (s0 := set_seen _ _).
  assert (trace s0 = trace s ∧ stats s0 = stats s
          ∧ message_map s0 = message_map s) as (Et0 & Es0 & Em0) by done.
  pose proof (clone_message_outcome message s0) as H.
  pose proof (clone_message_spec cfg P message s0) as Hspec.
  unfold wp in H, Hspec.
  destruct (clone_message cfg P message s0) as [r s1].
  cbn [fst snd] in H, Hspec.
  destruct H as ((Htot & Hsk & evs & Ht & Hw) & Hle & H).
  destruct Hspec as (evs' & Ht' & _ & _ & _ & Hspec).
  assert (evs' = evs) as ->.
  { rewrite Ht in Ht'. by apply app_inv_tail in Ht'. }
  clear Ht'. rewrite Et0 in Ht. rewrite Es0 in Htot, Hsk, Hle, Hspec.
  rewrite Em0 in Hspec.
  destruct r as [v|e|]; [| |done].
  - exists evs. cbn [handled fst snd]. split; [done|]. split; [lia|].
    split; [intros; lia|]. intros _. unfold outcomes. lia.
  - rewrite Es0 in H.
    destruct (is_rate_limit e) eqn:Erl.
    + assert (is_Exception e = true) as Hex by (by destruct e).
      specialize (H Hex).
      assert (∃ q, handled (Raise e, s1) = (Return None, log (EvSleep q) s1))
        as [q ->] by (destruct e; try done; by eexists).
      exists (EvSleep q :: evs). cbn [fst snd trace log stats tally is_sleep].
      rewrite Ht. split; [done|]. split; [lia|]. split.
      * intros Hremove _.
        destruct H as [(tr & f & H)|(Hc & Hf & H)];
          [apply Hremove in H; congruence|].
        destruct (H eq_refl).
        destruct Hspec as [(Hno & Hm & _)|(d & _ & _ & Hc')]; [|lia].
        repeat split; try done.
        apply (no_success_app [_]); [|done]. unfold no_success. set_solver.
      * intros Hremove.
        destruct H as [(tr & f & H)|(Hc & Hf & H)];
          [apply Hremove in H; congruence|].
        unfold outcomes. cbn [stats log]. lia.
    + exists evs.
      assert (trace (handled (Raise e, s1)).2 = trace s1) as ->
        by (by destruct e).
      split; [done|]. split; [lia|]. split; [intros; lia|].
      intros Hremove. destruct (is_Exception e) eqn:Hex.
      * destruct (H eq_refl) as [(tr & f & H')|(Hc & Hf & _)];
          [apply Hremove in H'; congruence|].
        unfold outcomes. destruct e; try done; cbn [handled snd];
          state_simpl; lia.
      * destruct e; try done. cbn [handled snd]. unfold outcomes. lia.
Qed.

End Outcome.

(** X13. A rate-limit wait drops the message.  When [os.remove] raises
    no rate-limit signal, one invocation of [process_message] waits at
    most once, and only for a forwarded message with [ANONYMIZE_FORWARDS]
    off (the signals of every other send are caught by the handlers of
    lines 298-406).  When it waits it returns [None]: no send had
    succeeded, the mapping is unchanged, the message counts neither as
    cloned nor as failed, and its id stays marked as processed, so that no
    later invocation sends it. *)
Theorem rate_limit_wait_drops_the_message cfg P fuel message s :
  (∀ tr f e, os_remove P tr f = inl e → is_rate_limit e = false) →
  let run := process_message cfg P (S (S fuel)) message s in
  ∃ evs, trace run.2 = (evs ++ trace s)%list
    ∧ (tally is_sleep evs ≤ 1)%nat
    ∧ (tally is_sleep evs = 1%nat →
       is_Some (fwd_from message) ∧ ANONYMIZE_FORWARDS cfg = false
       ∧ run.1 = Return None
       ∧ no_success evs
       ∧ message_map run.2 = message_map s
       ∧ stat cloned (stats run.2) = stat cloned (stats s)
       ∧ stat failed (stats run.2) = stat failed (stats s)
       ∧ id message ∈ processed_messages_ids run.2).
Proof.
  intros Hremove run.
  destruct (invocation_outcome cfg P fuel message s)
    as (evs & Ht & Hle & Hwait & _).
  exists evs. split; [done|]. split; [done|]. intros Hone.
  destruct (Hwait Hremove Hone) as (? & ? & ? & ? & ? & ? & ?).
  repeat split; try done.
  unfold run. rewrite processed_process_message. set_solver.
Qed.

Lemma rate_limit_wait_drops_the_message_witness :
  let run := process_message plain_config
               (mock [] [inl (FloodWaitError 3); inl (SlowModeWaitError 3)])
               2 (forwarded_message 1 "hello") init in
  ∃ evs, trace run.2 = (evs ++ trace init)%list
    ∧ (tally is_sleep evs ≤ 1)%nat
    ∧ (tally is_sleep evs = 1%nat →
       is_Some (fwd_from (forwarded_message 1 "hello"))
       ∧ ANONYMIZE_FORWARDS plain_config = false
       ∧ run.1 = Return None
       ∧ no_success evs
       ∧ message_map run.2 = message_map init
       ∧ stat cloned (stats run.2) = stat cloned (stats init)
       ∧ stat failed (stats run.2) = stat failed (stats init)
       ∧ 1 ∈ processed_messages_ids run.2).
Proof.
  apply (rate_limit_wait_drops_the_message plain_config
           (mock [] [inl (FloodWaitError 3); inl (SlowModeWaitError 3)])
           0 (forwarded_message 1 "hello") init).
  intros tr f e H. discriminate H.
Defined.

(** ** The outcome counters of a run *)

Lemma same_total_refl : Reflexive same_total.
Proof. by intros s. Qed.

Lemma same_total_trans : Transitive same_total.
Proof. unfold same_total. intros s1 s2 s3 ? ?. congruence. Qed.

#[local] Existing Instance same_total_refl.
#[local] Existing Instance same_total_trans.

Section Counters.

Context (cfg : Config) (P : Platform).

Lemma same_total_clone_loop fuel i n messages :
  frames same_total (clone_loop cfg P fuel i n messages).
Proof.
  apply (framed_clone_loop cfg P same_total); try done.
  intros k s Hk. unfold same_total. cbn [stats set_stats].
  by apply stat_incr_ne.
Qed.

Lemma connect_stats s : stats (connect cfg P s).2 = stats s.
Proof.
  assert (wp (connect cfg P) (λ _ s', stats s' = stats s) s) as H; [|done].
  unfold connect. wp_run. all: done.
Qed.

Lemma collect_messages_outcomes items pending acc s :
  outcomes (collect_messages cfg items pending acc s).2 = outcomes s.
Proof.
  revert acc s. induction items as [|item rest IH]; intros acc s.
  - cbn [collect_messages]. by destruct pending.
  - destruct item as [m| |]; [|apply IH..].
    cbn [collect_messages]. unfold mbind, M_bind, bump, modify.
    destruct (_ && _); [done|]. by rewrite IH.
Qed.

Lemma get_messages_counts s :
  let run := get_messages cfg P s in
  outcomes run.2 = outcomes s
  ∧ match run.1 with
    | Return messages =>
        (stat total (stats run.2)
         = stat total (stats s) + List.length messages)%nat
    | Raise _ => (stat total (stats s) ≤ stat total (stats run.2))%nat
    | OutOfFuel => False
    end.
Proof.
  unfold get_messages, mbind, M_bind, query. cbn [fst snd].
  set (fetched := iter_messages P (trace s) (iter_params cfg)).
  set (s0 := log _ s).
  split; [by rewrite collect_messages_outcomes|].
  pose proof (collect_messages_spec cfg fetched.1 fetched.2 [] s0) as H.
  cbn [app List.length] in H. specialize (H ltac:(lia)). cbv zeta in H.
  destruct (collect_messages cfg fetched.1 fetched.2 [] s0) as [[ms|e|] s1];
    cbn [fst snd] in *; [| |done].
  - destruct H as [_ H]. unfold s0 in H. cbn [stats log] in H. lia.
  - destruct H as (_ & _ & H). unfold s0 in H. cbn [stats log] in H. lia.
Qed.

Context (os_remove_ok :
           ∀ tr f e, os_remove P tr f = inl e → is_Exception e = false).

Lemma clone_one_outcomes fuel i n message s :
  (outcomes (clone_one cfg P (S (S fuel)) i n message s).2
   ≤ 1 + outcomes s)%nat.
Proof.
  rewrite clone_one_unfold. cbn zeta.
  match goal with
  | |- context [process_message cfg P _ message ?x] => set (s1 := x)
  end.
  assert (outcomes s1 = outcomes s) as <-.
  { unfold s1. by destruct (_ && _). }
  destruct (invocation_outcome cfg P fuel message s1) as (_ & _ & _ & _ & H).
  specialize (H os_remove_ok).
  destruct (process_message cfg P (S (S fuel)) message s1) as [[v|e|] s2];
    cbn [fst snd] in *.
  - by destruct (_ || _).
  - by destruct (is_Exception e).
  - done.
Qed.

Lemma clone_loop_outcomes fuel i n messages s :
  (outcomes (clone_loop cfg P (S (S fuel)) i n messages s).2
   ≤ List.length messages + outcomes s)%nat.
Proof.
  revert i s. induction messages as [|m rest IH]; intros i s; [done|].
  cbn [clone_loop List.length]. unfold mbind, M_bind.
  pose proof (clone_one_outcomes fuel i n m s) as H1.
  destruct (clone_one cfg P (S (S fuel)) i n m s) as [[[]|e|] s1];
    cbn [fst snd] in *; [|lia..].
  specialize (IH (S i) s1). lia.
Qed.

End Counters.

(** X14. The report never counts more outcomes than messages.  When
    [os.remove] raises no [Exception], what a run adds to
    [stats['cloned']], [stats['skipped']] and [stats['failed']] together
    is at most what it adds to [stats['total']].  (A message whose
    download cannot be removed after a successful send counts as cloned
    and as failed.) *)
Theorem outcomes_bounded_by_total cfg P fuel s :
  (∀ tr f e, os_remove P tr f = inl e → is_Exception e = false) →
  let s' := (start_cloning cfg P (S (S fuel)) s).2 in
  (outcomes s' + stat total (stats s)
   ≤ outcomes s + stat total (stats s'))%nat.
Proof.
  intros Hremove s'. unfold s'. clear s'.
  unfold start_cloning, try_finally.
  match goal with
  | |- context [let '(r, s') := ?b s in _] => set (body := b)
  end.
  assert (outcomes (body s).2 + stat total (stats s)
          ≤ outcomes s + stat total (stats (body s).2))%nat as Hb.
  { unfold body, mbind, M_bind.
    pose proof (connect_stats cfg P s) as Hc.
    destruct (connect cfg P s) as [[[]|e|] s1]; cbn [fst snd] in *;
      [|unfold outcomes; rewrite Hc; lia..].
    destruct (get_messages_counts cfg P s1) as [Ho Ht].
    assert (outcomes s1 = outcomes s ∧ stat total (stats s1)
            = stat total (stats s)) as [Eo Et].
    { unfold outcomes. by rewrite Hc. }
    destruct (get_messages cfg P s1) as [[messages|e|] s2];
      cbn [fst snd] in *; [|lia..].
    destruct messages as [|m rest]; [cbn [gets snd List.length] in *; lia|].
    pose proof (clone_loop_outcomes cfg P Hremove fuel 0
                  (List.length (m :: rest)) (m :: rest) s2) as Hl.
    pose proof (same_total_clone_loop cfg P (S (S fuel)) 0
                  (List.length (m :: rest)) (m :: rest) s2) as Hs.
    unfold same_total in Hs.
    destruct (clone_loop cfg P (S (S fuel)) 0 _ (m :: rest) s2)
      as [[[]|e|] s3]; cbn [gets fst snd] in *; lia. }
  destruct (body s) as [r s1]. cbn [snd] in Hb.
  unfold cleanup, call, emit, modify, mbind, M_bind. cbn [fst snd trace log].
  destruct (client_disconnect P (EvCleanDownloads :: trace s1)) as [e|[]];
    cbn [fst snd]; exact Hb.
Qed.

Lemma outcomes_bounded_by_total_witness :
  let P := mock [ItemMessage (text_message 1 "a");
                 ItemMessage (album_message 2 7);
                 ItemMessage (album_message 3 7)] [inl RPCError] in
  let s' := (start_cloning plain_config P 2 init).2 in
  (outcomes s' + stat total (stats init)
   ≤ outcomes init + stat total (stats s'))%nat.
Proof.
  apply (outcomes_bounded_by_total plain_config
           (mock [ItemMessage (text_message 1 "a");
                  ItemMessage (album_message 2 7);
                  ItemMessage (album_message 3 7)] [inl RPCError]) 0 init).
  intros tr f e H. discriminate H.
Defined.

(** ** Parsing [TEXT_REPLACEMENTS] *)

Lemma contains_app c a b :
  PyStr.contains c (a +:+ b) = PyStr.contains c a || PyStr.contains c b.
Proof.
  induction a as [|c' a IH]; [done|].
  change (String c' a +:+ b) with (String c' (a +:+ b)).
  cbn [PyStr.contains]. by rewrite IH, orb_assoc.
Qed.

Lemma split_pieces_plain sep a :
  PyStr.contains sep a = false → PyStr.split_pieces sep a = (a, []).
Proof.
  induction a as [|c a IH]; [done|]. cbn [PyStr.contains PyStr.split_pieces].
  intros [E1 E2]%orb_false_iff. by rewrite (IH E2), E1.
Qed.

Lemma split_pieces_sep sep a b :
  PyStr.contains sep a = false →
  PyStr.split_pieces sep (a +:+ String sep b) = (a, PyStr.split sep b).
Proof.
  induction a as [|c a IH].
  - intros _. change ("" +:+ String sep b) with (String sep b).
    cbn [PyStr.split_pieces]. unfold PyStr.split.
    destruct (PyStr.split_pieces sep b). by rewrite Ascii.eqb_refl.
  - cbn [PyStr.contains]. intros [E1 E2]%orb_false_iff.
    change (String c a +:+ String sep b) with (String c (a +:+ String sep b)).
    cbn [PyStr.split_pieces]. by rewrite (IH E2), E1.
Qed.

Lemma split_first_sep sep a b :
  PyStr.contains sep a = false →
  PyStr.split_first sep (a +:+ String sep b) = (a, b).
Proof.
  induction a as [|c a IH].
  - intros _. change ("" +:+ String sep b) with (String sep b).
    cbn [PyStr.split_first]. by rewrite Ascii.eqb_refl.
  - cbn [PyStr.contains]. intros [E1 E2]%orb_false_iff.
    change (String c a +:+ String sep b) with (String c (a +:+ String sep b)).
    cbn [PyStr.split_first]. by rewrite (IH E2), E1.
Qed.

Lemma dict_set_fresh key value d :
  key ∉ d.*1 → dict_set key value d = (d ++ [(key, value)])%list.
Proof.
  induction d as [|[k v] d IH]; [done|]. cbn [dict_set fmap list_fmap fst].
  intros Hk. apply not_elem_of_cons in Hk as [Hne Hk].
  destruct (String.eqb k key) eqn:E.
  - apply String.eqb_eq in E. congruence.
  - cbn [app]. by rewrite IH.
Qed.

(** One round of the loop of line 92 on a well-formed entry. *)
Lemma parse_entry k v :
  plain_entry (k, v) →
  PyStr.contains ":" (k +:+ ":" +:+ v) = true
  ∧ PyStr.split_first ":" (k +:+ ":" +:+ v) = (k, v)
  ∧ PyStr.contains "," (k +:+ ":" +:+ v) = false.
Proof.
  intros (Hk1 & Hk2 & Hv & _). cbn [fst snd] in *.
  change (":" +:+ v) with (String ":" v).
  split; [|split].
  - rewrite contains_app. cbn [PyStr.contains].
    by rewrite Ascii.eqb_refl, orb_true_r.
  - by apply split_first_sep.
  - rewrite contains_app. cbn [PyStr.contains]. by rewrite Hk1, Hv.
Qed.

Lemma split_render p pairs :
  Forall plain_entry (p :: pairs) →
  PyStr.split "," (render_text_replacements (p :: pairs))
  = (λ q, q.1 +:+ ":" +:+ q.2) <$> (p :: pairs).
Proof.
  revert p. induction pairs as [|q pairs IH]; intros [k v] Hall.
  - apply Forall_cons in Hall as [Hp _].
    destruct (parse_entry k v Hp) as (_ & _ & Hc).
    cbn [render_text_replacements fmap list_fmap fst snd]. unfold PyStr.split.
    by rewrite split_pieces_plain.
  - apply Forall_cons in Hall as [Hp Hall].
    destruct (parse_entry k v Hp) as (_ & _ & Hc).
    specialize (IH q Hall).
    change (render_text_replacements ((k, v) :: q :: pairs))
      with (k +:+ ":" +:+ v +:+ "," +:+ render_text_replacements (q :: pairs)).
    change ("," +:+ render_text_replacements (q :: pairs))
      with (String "," (render_text_replacements (q :: pairs))).
    rewrite <- !append_assoc. unfold PyStr.split at 1.
    rewrite split_pieces_sep by (by rewrite append_assoc).
    rewrite IH, append_assoc. done.
Qed.

Lemma parse_fold pairs d :
  Forall plain_entry pairs →
  NoDup (d.*1 ++ pairs.*1) →
  fold_left
    (λ d pair,
       if PyStr.contains ":" pair then
         let '(original, replacement) := PyStr.split_first ":" pair in
         dict_set (PyStr.strip original) (PyStr.strip replacement) d
       else d)
    ((λ q, q.1 +:+ ":" +:+ q.2) <$> pairs) d
  = (d ++ pairs)%list.
Proof.
  revert d. induction pairs as [|[k v] pairs IH]; intros d Hall Hnd.
  { cbn. by rewrite app_nil_r. }
  apply Forall_cons in Hall as [Hp Hall].
  destruct (parse_entry k v Hp) as (Hc & Hs & _).
  destruct Hp as (_ & _ & _ & Hk & Hv). cbn [fst snd] in Hk, Hv.
  cbn [fmap list_fmap fold_left fst snd]. rewrite Hc, Hs, Hk, Hv.
  cbn [fmap list_fmap fst] in Hnd.
  rewrite dict_set_fresh.
  - rewrite IH; [by rewrite <- app_assoc | done |].
    rewrite fmap_app, <- app_assoc. done.
  - apply NoDup_app in Hnd as (_ & Hnd & _). intros Hin.
    apply (Hnd k Hin). set_solver.
Qed.

(** X15. The parser of lines 89-95 reads back what is written in its
    format: for pairs with distinct originals, free of commas, of colons
    in the original and of white space at the ends, parsing the
    comma-separated [original:replacement] list yields these pairs, in
    their order. *)
Theorem text_replacements_round_trip (pairs : list (string * string)) :
  NoDup pairs.*1 →
  Forall plain_entry pairs →
  parse_text_replacements (render_text_replacements pairs) = pairs.
Proof.
  intros Hnd Hall. destruct pairs as [|p pairs]; [done|].
  unfold parse_text_replacements.
  assert (PyStr.truthy (render_text_replacements (p :: pairs)) = true) as ->.
  { destruct p as [k v]. apply Forall_cons in Hall as [Hp _].
    destruct (parse_entry k v Hp) as (Hc & _).
    assert (PyStr.contains ":" (render_text_replacements ((k, v) :: pairs))
            = true) as Hin.
    { cbn [render_text_replacements]. destruct pairs; [done|].
      rewrite 2!contains_app. change (PyStr.contains ":" ":") with true.
      by rewrite orb_true_r. }
    by destruct (render_text_replacements ((k, v) :: pairs)). }
  rewrite split_render by done.
  by rewrite (parse_fold (p :: pairs) []).
Qed.

Lemma text_replacements_round_trip_witness :
  parse_text_replacements
    (render_text_replacements [("foo", "bar"); ("old name", "new: name")])
  = [("foo", "bar"); ("old name", "new: name")].
Proof.
  apply (text_replacements_round_trip
           [("foo", "bar"); ("old name", "new: name")]).
  - repeat constructor; set_solver.
  - repeat constructor.
Defined.

Lemma contains_rev_app c s1 s2 :
  PyStr.contains c (String.rev_app s1 s2)
  = PyStr.contains c s1 || PyStr.contains c s2.
Proof.
  revert s2. induction s1 as [|c' s1 IH]; intros s2; [done|].
  cbn [String.rev_app PyStr.contains]. rewrite IH. cbn [PyStr.contains].
  by rewrite orb_assoc, (orb_comm (PyStr.contains c s1)).
Qed.

Lemma contains_lstrip c s :
  PyStr.contains c s = false → PyStr.contains c (PyStr.lstrip s) = false.
Proof.
  induction s as [|c' s IH]; [done|]. cbn [PyStr.lstrip].
  destruct (PyStr.isspace c'); [|done].
  cbn [PyStr.contains]. intros [_ E]%orb_false_iff. by apply IH.
Qed.

Lemma contains_strip c s :
  PyStr.contains c s = false → PyStr.contains c (PyStr.strip s) = false.
Proof.
  intros E. unfold PyStr.strip, String.rev.
  rewrite contains_rev_app, orb_false_r. apply contains_lstrip.
  rewrite contains_rev_app, orb_false_r. by apply contains_lstrip.
Qed.

Lemma split_pieces_free sep s :
  PyStr.contains sep (PyStr.split_pieces sep s).1 = false
  ∧ Forall (λ piece, PyStr.contains sep piece = false)
      (PyStr.split_pieces sep s).2.
Proof.
  induction s as [|c s [IH1 IH2]]; [done|]. cbn [PyStr.split_pieces].
  destruct (PyStr.split_pieces sep s) as [piece pieces]. cbn [fst snd] in *.
  destruct (Ascii.eqb c sep) eqn:E; cbn [fst snd PyStr.contains].
  - split; [done | by constructor].
  - by rewrite E, IH1.
Qed.

Lemma split_first_free c sep s :
  PyStr.contains sep (PyStr.split_first sep s).1 = false
  ∧ (PyStr.contains c s = false →
     PyStr.contains c (PyStr.split_first sep s).1 = false
     ∧ PyStr.contains c (PyStr.split_first sep s).2 = false).
Proof.
  induction s as [|c' s [IH1 IH2]]; [done|]. cbn [PyStr.split_first].
  destruct (PyStr.split_first sep s) as [before after]. cbn [fst snd] in *.
  destruct (Ascii.eqb c' sep) eqn:E; cbn [fst snd PyStr.contains].
  - split; [done|]. by intros [_ ?]%orb_false_iff.
  - rewrite E, IH1. split; [done|]. intros [-> H]%orb_false_iff.
    by destruct (IH2 H).
Qed.

Lemma dict_set_keys key value d :
  NoDup d.*1 → Forall separator_free d → separator_free (key, value) →
  NoDup (dict_set key value d).*1
  ∧ Forall separator_free (dict_set key value d)
  ∧ ∀ k, k ∈ (dict_set key value d).*1 → k = key ∨ k ∈ d.*1.
Proof.
  intros Hnd Hall Hnew. induction d as [|[k v] d IH].
  { cbn. repeat split; [apply NoDup_singleton | by constructor | set_solver]. }
  cbn [dict_set fmap list_fmap fst] in *.
  apply NoDup_cons in Hnd as [Hk Hnd]. apply Forall_cons in Hall as [Hp Hall].
  destruct (String.eqb k key) eqn:E.
  - apply String.eqb_eq in E. subst k. cbn [fmap list_fmap fst].
    repeat split; [by apply NoDup_cons | by constructor | set_solver].
  - destruct (IH Hnd Hall) as (IH1 & IH2 & IH3). cbn [fmap list_fmap fst].
    repeat split; [|by constructor|set_solver].
    apply NoDup_cons. split; [|done]. intros Hin.
    destruct (IH3 k Hin) as [->|?]; [|done].
    by rewrite String.eqb_refl in E.
Qed.

(** X16. Whatever [TEXT_REPLACEMENTS] holds, the originals of the parsed
    dictionary are distinct and contain neither a colon nor a comma, and
    no replacement contains a comma: text with a colon or a comma in it
    cannot be configured for replacement. *)
Theorem parsed_originals_have_no_separator (TEXT_REPLACEMENTS : string) :
  NoDup (parse_text_replacements TEXT_REPLACEMENTS).*1
  ∧ Forall separator_free (parse_text_replacements TEXT_REPLACEMENTS).
Proof.
  unfold parse_text_replacements.
  destruct (PyStr.truthy TEXT_REPLACEMENTS);
    [|split; [apply NoDup_nil_2 | constructor]].
  assert (Forall (λ piece, PyStr.contains "," piece = false)
            (PyStr.split "," TEXT_REPLACEMENTS)) as Hpieces.
  { unfold PyStr.split.
    destruct (split_pieces_free "," TEXT_REPLACEMENTS) as [H1 H2].
    destruct (PyStr.split_pieces "," TEXT_REPLACEMENTS). by constructor. }
  assert (NoDup ([] : list (string * string)).*1
          ∧ Forall separator_free []) as Hinv
    by (split; [apply NoDup_nil_2 | constructor]).
  revert Hinv. generalize ([] : list (string * string)).
  induction Hpieces as [|pair pieces Hpair _ IH]; intros d Hinv; [done|].
  cbn [fold_left]. apply IH.
  destruct (PyStr.contains ":" pair); [|done].
  destruct (split_first_free "," ":" pair) as [Hb Hc].
  destruct (Hc Hpair) as [Hc1 Hc2].
  destruct (PyStr.split_first ":" pair) as [original replacement].
  cbn [fst snd] in *. destruct Hinv as [Hnd Hall].
  destruct (dict_set_keys (PyStr.strip original) (PyStr.strip replacement) d
              Hnd Hall) as (? & ? & _); [|done].
  repeat split; cbn [fst snd]; by apply contains_strip.
Qed.

(** ** URL removal *)

Lemma drop_nil n : PyStr.drop n "" = "".
Proof. by destruct n. Qed.

Lemma word_prefix_refl s : word_prefix s s = true.
Proof.
  induction s as [|c s IH]; [done|]. cbn [word_prefix].
  destruct (PyStr.isspace c); [done|]. by rewrite Ascii.eqb_refl.
Qed.

Lemma word_prefix_app p w : word_prefix p (p +:+ w) = true.
Proof.
  induction p as [|c p IH]; [done|].
  change (String c p +:+ w) with (String c (p +:+ w)). cbn [word_prefix].
  destruct (PyStr.isspace c); [done|]. by rewrite Ascii.eqb_refl.
Qed.

Lemma word_prefix_space s t :
  PyStr.nonspace_run s = 0%nat → word_prefix s t = true.
Proof.
  destruct s as [|c s]; [done|]. cbn [PyStr.nonspace_run word_prefix].
  by destruct (PyStr.isspace c).
Qed.

Lemma word_prefix_run s t :
  word_prefix s t = true →
  PyStr.nonspace_run s ≠ 0%nat → PyStr.nonspace_run t ≠ 0%nat.
Proof.
  destruct s as [|c s]; [done|]. cbn [PyStr.nonspace_run word_prefix].
  destruct (PyStr.isspace c) eqn:E; [done|].
  destruct t as [|d t]; [done|]. intros [->%Ascii.eqb_eq _]%andb_prop _.
  cbn [PyStr.nonspace_run]. by rewrite E.
Qed.

Lemma thin_nil s : thin "" s.
Proof. intros n. exists 0%nat. by rewrite drop_nil. Qed.

Lemma thin_drop c out s : thin out s → thin out (String c s).
Proof. intros H n. destruct (H n) as [n' Hn']. by exists (S n'). Qed.

Lemma thin_keep c out s :
  thin out s → (PyStr.isspace c = false → word_prefix out s = true) →
  thin (String c out) (String c s).
Proof.
  intros H Hw [|n].
  - exists 0%nat. cbn [PyStr.drop word_prefix].
    destruct (PyStr.isspace c); [done|]. by rewrite Ascii.eqb_refl, Hw.
  - destruct (H n) as [n' Hn']. by exists (S n').
Qed.

Lemma thin_refl s : thin s s.
Proof. intros n. exists n. apply word_prefix_refl. Qed.

Lemma thin_prefix p w : thin p (p +:+ w).
Proof.
  induction p as [|c p IH]; [apply thin_nil|].
  change (String c p +:+ w) with (String c (p +:+ w)).
  apply thin_keep; [done|]. intros _. apply word_prefix_app.
Qed.

Lemma clean_thin matcher out s :
  wordy matcher → clean matcher s → thin out s → clean matcher out.
Proof.
  intros HM Hs Hthin n. destruct (Hthin n) as [n' Hn'].
  by apply (wordy_mono _ HM _ _ Hn').
Qed.

Section Wordy.

Context (matcher : string → option nat) (HM : wordy matcher).

Lemma wordy_space s : PyStr.nonspace_run s = 0%nat → matcher s = None.
Proof.
  intros E. destruct (matcher s) as [n|] eqn:En; [|done].
  destruct (wordy_run _ HM _ _ En). congruence.
Qed.

(** Once a match has been cut out, the scan resumes at white space or at
    the end. *)
Lemma re_sub_skips_word s :
  PyStr.nonspace_run
    (PyStr.re_sub_scan matcher "" (PyStr.nonspace_run s) s) = 0%nat.
Proof.
  induction s as [|c s IH]; [done|]. cbn [PyStr.nonspace_run].
  destruct (PyStr.isspace c) eqn:E; [|exact IH].
  cbn [PyStr.re_sub_scan]. rewrite wordy_space.
  - cbn [PyStr.nonspace_run]. by rewrite E.
  - cbn [PyStr.nonspace_run]. by rewrite E.
Qed.

Lemma re_sub_match c s k :
  matcher (String c s) = Some (S k) →
  PyStr.isspace c = false ∧ k = PyStr.nonspace_run s.
Proof.
  intros E. destruct (wordy_run _ HM _ _ E) as [Hn _].
  cbn [PyStr.nonspace_run] in Hn. destruct (PyStr.isspace c); [done|].
  split; [done | congruence].
Qed.

Lemma re_sub_head s :
  word_prefix (PyStr.re_sub_scan matcher "" 0 s) s = true.
Proof.
  induction s as [|c s IH]; [done|]. cbn [PyStr.re_sub_scan].
  assert (word_prefix (String c (PyStr.re_sub_scan matcher "" 0 s))
            (String c s) = true) as Hkeep.
  { cbn [word_prefix]. destruct (PyStr.isspace c); [done|].
    by rewrite Ascii.eqb_refl. }
  destruct (matcher (String c s)) as [[|k]|] eqn:E; [done| |done].
  destruct (re_sub_match c s k E) as [_ ->].
  change ("" +:+ ?x) with x. apply word_prefix_space, re_sub_skips_word.
Qed.

Lemma re_sub_scan_clean s skip :
  clean matcher (PyStr.re_sub_scan matcher "" skip s).
Proof.
  revert skip. induction s as [|c s IH]; intros skip n.
  { cbn [PyStr.re_sub_scan]. rewrite drop_nil. by apply wordy_space. }
  destruct skip as [|k]; [|apply IH]. cbn [PyStr.re_sub_scan].
  assert (matcher (String c s) = None →
          matcher (PyStr.drop n (String c (PyStr.re_sub_scan matcher "" 0 s)))
          = None) as Hkeep.
  { intros E. destruct n as [|n]; [|apply IH]. cbn [PyStr.drop].
    apply (wordy_mono _ HM _ (String c s)); [|done].
    cbn [word_prefix]. destruct (PyStr.isspace c); [done|].
    by rewrite Ascii.eqb_refl, re_sub_head. }
  destruct (matcher (String c s)) as [[|k]|] eqn:E.
  - destruct (wordy_run _ HM _ _ E). done.
  - change ("" +:+ ?x) with x. apply IH.
  - by apply Hkeep.
Qed.

Lemma re_sub_scan_thin s skip :
  thin (PyStr.re_sub_scan matcher "" skip s) s.
Proof.
  revert skip. induction s as [|c s IH]; intros skip; [apply thin_nil|].
  destruct skip as [|k]; [|apply thin_drop, IH]. cbn [PyStr.re_sub_scan].
  destruct (matcher (String c s)) as [[|k]|] eqn:E.
  - apply thin_keep; [apply IH | intros; apply re_sub_head].
  - change ("" +:+ ?x) with x. apply thin_drop, IH.
  - apply thin_keep; [apply IH | intros; apply re_sub_head].
Qed.

End Wordy.

Lemma match_spaces_space c s k :
  PyStr.match_spaces (String c s) = Some k → c = " "%char.
Proof.
  unfold PyStr.match_spaces. cbn [PyStr.space_run].
  by destruct c as [[] [] [] [] [] [] [] []].
Qed.

Lemma collapse_head s :
  word_prefix (PyStr.re_sub_scan PyStr.match_spaces " " 0 s) s = true.
Proof.
  induction s as [|c s IH]; [done|]. cbn [PyStr.re_sub_scan].
  assert (word_prefix
            (String c (PyStr.re_sub_scan PyStr.match_spaces " " 0 s))
            (String c s) = true) as Hkeep.
  { cbn [word_prefix]. destruct (PyStr.isspace c); [done|].
    by rewrite Ascii.eqb_refl. }
  by destruct (PyStr.match_spaces (String c s)) as [[|k]|].
Qed.

Lemma collapse_thin s skip :
  thin (PyStr.re_sub_scan PyStr.match_spaces " " skip s) s.
Proof.
  revert skip. induction s as [|c s IH]; intros skip; [apply thin_nil|].
  destruct skip as [|k]; [|apply thin_drop, IH]. cbn [PyStr.re_sub_scan].
  destruct (PyStr.match_spaces (String c s)) as [[|k]|] eqn:E.
  - apply thin_keep; [apply IH | intros; apply collapse_head].
  - apply match_spaces_space in E as ->.
    change (" " +:+ ?x) with (String " " x). by apply thin_keep.
  - apply thin_keep; [apply IH | intros; apply collapse_head].
Qed.

Lemma lstrip_thin s : thin (PyStr.lstrip s) s.
Proof.
  induction s as [|c s IH]; [apply thin_nil|]. cbn [PyStr.lstrip].
  destruct (PyStr.isspace c); [by apply thin_drop | apply thin_refl].
Qed.

Lemma lstrip_suffix s : ∃ ws, s = ws +:+ PyStr.lstrip s.
Proof.
  induction s as [|c s [ws IH]]; [by exists ""|]. cbn [PyStr.lstrip].
  destruct (PyStr.isspace c); [|by exists ""].
  exists (String c ws). change (String c ws +:+ ?x) with (String c (ws +:+ x)).
  by rewrite <- IH.
Qed.

Lemma rev_app_append a b : String.rev_app a b = String.rev a +:+ b.
Proof.
  unfold String.rev. revert b. induction a as [|c a IH]; intros b; [done|].
  cbn [String.rev_app]. rewrite (IH (String c b)), (IH (String c "")).
  by rewrite append_assoc.
Qed.

Lemma rev_append a b : String.rev (a +:+ b) = String.rev b +:+ String.rev a.
Proof.
  unfold String.rev at 1 3. generalize "". induction a as [|c a IH]; intros acc.
  - change ("" +:+ b) with b. cbn [String.rev_app]. apply rev_app_append.
  - change (String c a +:+ b) with (String c (a +:+ b)). cbn [String.rev_app].
    apply IH.
Qed.

Lemma rev_involutive s : String.rev (String.rev s) = s.
Proof.
  induction s as [|c s IH]; [done|].
  change (String.rev (String c s)) with (String.rev_app s (String c "")).
  by rewrite rev_app_append, rev_append, IH.
Qed.

Lemma strip_thin s : thin (PyStr.strip s) (PyStr.lstrip s).
Proof.
  unfold PyStr.strip. set (t := PyStr.lstrip s).
  destruct (lstrip_suffix (String.rev t)) as [ws E].
  assert (t = String.rev (PyStr.lstrip (String.rev t)) +:+ String.rev ws)
    as Et.
  { rewrite <- rev_append, <- E. by rewrite rev_involutive. }
  rewrite Et at 2. apply thin_prefix.
Qed.

(** White-space-free literals followed by [\S+]. *)
Lemma prefix_run lit s :
  PyStr.nonspace_run lit = String.length lit →
  String.prefix lit s = true →
  PyStr.nonspace_run s
  = (String.length lit
     + PyStr.nonspace_run (PyStr.drop (String.length lit) s))%nat.
Proof.
  revert s. induction lit as [|a lit IH]; intros s Hlit Hp; [done|].
  destruct s as [|b s]; [done|]. cbn [String.prefix] in Hp.
  destruct (ascii_dec a b) as [<-|]; [|done].
  cbn [PyStr.nonspace_run String.length PyStr.drop] in *.
  destruct (PyStr.isspace a); [done|].
  rewrite (IH s); [done | lia | done].
Qed.

Lemma prefix_mono lit s' s :
  PyStr.nonspace_run lit = String.length lit →
  word_prefix s' s = true →
  String.prefix lit s' = true →
  String.prefix lit s = true
  ∧ word_prefix (PyStr.drop (String.length lit) s')
      (PyStr.drop (String.length lit) s) = true.
Proof.
  revert s' s. induction lit as [|a lit IH]; intros s' s Hlit Hw Hp.
  { split; [by destruct s | exact Hw]. }
  destruct s' as [|b s']; [done|]. cbn [String.prefix] in Hp.
  destruct (ascii_dec a b) as [<-|]; [|done].
  cbn [PyStr.nonspace_run String.length] in Hlit.
  cbn [word_prefix] in Hw. destruct (PyStr.isspace a); [done|].
  destruct s as [|d s]; [done|].
  apply andb_prop in Hw as [<-%Ascii.eqb_eq Hw].
  cbn [String.prefix String.length PyStr.drop].
  destruct (ascii_dec a a); [|done]. apply IH; [lia | done..].
Qed.

Lemma wordy_lit lit :
  PyStr.nonspace_run lit = String.length lit →
  wordy (PyStr.match_lit_nonspace lit).
Proof.
  intros Hlit. split.
  - intros s n. unfold PyStr.match_lit_nonspace.
    destruct (String.prefix lit s) eqn:Ep; [|done].
    rewrite (prefix_run lit s Hlit Ep).
    destruct (PyStr.nonspace_run (PyStr.drop (String.length lit) s));
      [done|]. intros [= <-]. split; [done | lia].
  - intros s' s Hw. unfold PyStr.match_lit_nonspace.
    destruct (String.prefix lit s') eqn:Ep'; [|done].
    destruct (prefix_mono lit s' s Hlit Hw Ep') as [-> Hw'].
    pose proof (word_prefix_run _ _ Hw') as Hrun.
    destruct (PyStr.nonspace_run (PyStr.drop (String.length lit) s')); [done|].
    destruct (PyStr.nonspace_run (PyStr.drop (String.length lit) s));
      [|done]. by destruct Hrun.
Qed.

Lemma wordy_tme : wordy PyStr.match_tme.
Proof. by apply wordy_lit. Qed.

Lemma wordy_url : wordy PyStr.match_url.
Proof.
  pose proof (wordy_lit "https://" eq_refl) as H1.
  pose proof (wordy_lit "http://" eq_refl) as H2.
  split.
  - intros s n. unfold PyStr.match_url.
    destruct (PyStr.match_lit_nonspace "https://" s) eqn:E.
    + intros [= <-]. by apply (wordy_run _ H1).
    + apply (wordy_run _ H2).
  - intros s' s Hw. unfold PyStr.match_url.
    destruct (PyStr.match_lit_nonspace "https://" s) eqn:E; [done|].
    intros E2. rewrite (wordy_mono _ H1 _ _ Hw E).
    apply (wordy_mono _ H2 _ _ Hw E2).
Qed.

(** X17. With [REMOVE_URLS] on, the text that leaves the URL removal of
    lines 233-238 holds no URL: neither pattern matches at any position
    of it.  (The source link of lines 241-246 is appended afterwards.) *)
Theorem removed_urls_leave_no_url cfg (text : string) :
  REMOVE_URLS cfg = true →
  clean PyStr.match_url (remove_urls cfg text)
  ∧ clean PyStr.match_tme (remove_urls cfg text).
Proof.
  intros Hon. unfold remove_urls. rewrite Hon.
  destruct (PyStr.truthy text) eqn:Et.
  2: { destruct text; [|done]. split; intros n; by rewrite drop_nil. }
  cbn [andb]. unfold strip_urls, PyStr.re_sub.
  set (t1 := PyStr.re_sub_scan PyStr.match_url "" 0 text).
  set (t2 := PyStr.re_sub_scan PyStr.match_tme "" 0 t1).
  set (t3 := PyStr.re_sub_scan PyStr.match_spaces " " 0 t2).
  assert (clean PyStr.match_url t2 ∧ clean PyStr.match_tme t2) as [H1 H2].
  { split; [|apply re_sub_scan_clean, wordy_tme].
    apply (clean_thin _ _ t1); [apply wordy_url | |].
    - apply re_sub_scan_clean, wordy_url.
    - apply re_sub_scan_thin, wordy_tme. }
  assert (∀ matcher, wordy matcher → clean matcher t2 →
            clean matcher (PyStr.strip t3)) as Hrest.
  { intros matcher HM Hc.
    apply (clean_thin _ _ (PyStr.lstrip t3)); [done | | apply strip_thin].
    apply (clean_thin _ _ t3); [done | | apply lstrip_thin].
    apply (clean_thin _ _ t2); [done | done | apply collapse_thin]. }
  split; apply Hrest; auto using wordy_url, wordy_tme.
Qed.

Lemma removed_urls_leave_no_url_witness :
  clean PyStr.match_url
    (remove_urls url_free_config "see https://a.b/c and t.me/x  now")
  ∧ clean PyStr.match_tme
      (remove_urls url_free_config "see https://a.b/c and t.me/x  now").
Proof.
  apply (removed_urls_leave_no_url url_free_config
           "see https://a.b/c and t.me/x  now").
  reflexivity.
Defined.
